(** * Berry lockfile: a shallow embedding of cli/internal/lockfile/berry_lockfile.go

    The Go code works on [map[string]*YarnLockfileEntry].  Go strings are
    byte strings, modelled by [string]; Go maps are modelled by stdpp's
    [gmap]; entry pointers are modelled by addresses into an explicit
    store, so that sharing of one entry between several keys is visible. *)

From Stdlib Require Import Ascii String NArith List.
From stdpp Require Import gmap strings list fin_maps sorting.

Local Open Scope string_scope.

(** ** The Go standard library functions the lockfile code calls *)

Module GoStrings.

(** [len(s)] *)
Definition len (s : string) : nat := String.length s.

(** [strings.HasPrefix(s, prefix)] *)
Fixpoint HasPrefix (s prefix : string) : bool :=
  match prefix, s with
  | EmptyString, _ => true
  | String _ _, EmptyString => false
  | String p prefix', String c s' => Ascii.eqb c p && HasPrefix s' prefix'
  end.

(** The scanning loop shared by [strings.Split] and [strings.ReplaceAll]
    for a non-empty separator: the string is read left to right; at an
    occurrence of [sep] the piece collected so far is closed and the
    scan resumes after the occurrence, so occurrences never overlap.
    [skip] counts the bytes of a matched separator still to be dropped,
    [cur] is the current piece, most recent byte first. *)
Fixpoint split_from (sep : string) (skip : nat) (cur : string) (s : string)
  : list string :=
  match s with
  | EmptyString => [String.rev cur]
  | String c s' =>
    match skip with
    | S k => split_from sep k cur s'
    | O =>
      if HasPrefix s sep
      then String.rev cur :: split_from sep (len sep - 1) EmptyString s'
      else split_from sep O (String c cur) s'
    end
  end.

(** [strings.Split(s, sep)] for [sep] non-empty (the only use in the
    lockfile code has [sep = ", "]).  For an empty separator Go explodes
    the string into UTF-8 sequences; that case is not used and is given
    as the unsplit string. *)
Definition Split (s sep : string) : list string :=
  match sep with
  | EmptyString => [s]
  | _ => split_from sep O EmptyString s
  end.

(** [strings.Join(elems, sep)] *)
Fixpoint Join (elems : list string) (sep : string) : string :=
  match elems with
  | [] => EmptyString
  | [e] => e
  | e :: rest => e ++ sep ++ Join rest sep
  end.

(** [strings.ReplaceAll(s, old, new)] for [old] non-empty. *)
Definition ReplaceAll (s old new : string) : string :=
  match old with
  | EmptyString => s
  | _ => Join (split_from old O EmptyString s) new
  end.

Definition byte_is (c : ascii) (n : N) : bool := N.eqb (N_of_ascii c) n.

(** The table [asciiSpace] of package strings: tab, newline, vertical
    tab, form feed, carriage return, space. *)
Definition asciiSpace (c : ascii) : bool :=
  byte_is c 9 || byte_is c 10 || byte_is c 11 || byte_is c 12
  || byte_is c 13 || byte_is c 32.

(** [unicode.IsSpace] on the two-byte UTF-8 sequences: U+0085 and
    U+00A0. *)
Definition space2 (b1 b2 : ascii) : bool :=
  byte_is b1 194 && (byte_is b2 133 || byte_is b2 160).

(** [unicode.IsSpace] on the three-byte UTF-8 sequences: U+1680,
    U+2000..U+200A, U+2028, U+2029, U+202F, U+205F, U+3000. *)
Definition space3 (b1 b2 b3 : ascii) : bool :=
  (byte_is b1 225 && byte_is b2 154 && byte_is b3 128)
  || (byte_is b1 226 && byte_is b2 128
      && ((N.leb 128 (N_of_ascii b3) && N.leb (N_of_ascii b3) 138)
          || byte_is b3 168 || byte_is b3 169 || byte_is b3 175))
  || (byte_is b1 226 && byte_is b2 129 && byte_is b3 159)
  || (byte_is b1 227 && byte_is b2 128 && byte_is b3 128).

(** [strings.TrimLeftFunc(s, unicode.IsSpace)]: drops white-space runes
    from the front. *)
Fixpoint trimLeft (s : string) : string :=
  match s with
  | EmptyString => EmptyString
  | String b1 r1 =>
    if asciiSpace b1 then trimLeft r1
    else match r1 with
         | EmptyString => s
         | String b2 r2 =>
           if space2 b1 b2 then trimLeft r2
           else match r2 with
                | EmptyString => s
                | String b3 r3 =>
                  if space3 b1 b2 b3 then trimLeft r3 else s
                end
         end
  end.

(** The same scan from the back, on the reversed string (so the bytes of
    a rune arrive last byte first). *)
Fixpoint trimLeft_rev (s : string) : string :=
  match s with
  | EmptyString => EmptyString
  | String b1 r1 =>
    if asciiSpace b1 then trimLeft_rev r1
    else match r1 with
         | EmptyString => s
         | String b2 r2 =>
           if space2 b2 b1 then trimLeft_rev r2
           else match r2 with
                | EmptyString => s
                | String b3 r3 =>
                  if space3 b3 b2 b1 then trimLeft_rev r3 else s
                end
         end
  end.

Definition trimRight (s : string) : string :=
  String.rev (trimLeft_rev (String.rev s)).

(** [strings.TrimSpace(s)]: [s] without leading and trailing Unicode
    white space. *)
Definition TrimSpace (s : string) : string := trimRight (trimLeft s).

End GoStrings.

Import GoStrings.

Definition squote : string := "'".
Definition dquote : string := String (ascii_of_nat 34) EmptyString.
Definition nl : string := String (ascii_of_nat 10) EmptyString.

(** Whether the byte [n] occurs in [s]. *)
Fixpoint hasByte (n : N) (s : string) : bool :=
  match s with
  | EmptyString => false
  | String c r => byte_is c n || hasByte n r
  end.

Definition isEmpty (s : string) : bool :=
  match s with EmptyString => true | _ => false end.

(** ** Memory: entries and maps are objects with identity *)

Abbreviation addr := positive (only parsing).

(** A Go pointer or map reference: [None] is [nil]. *)
Abbreviation ptr := (option positive) (only parsing).

(** [YarnLockfileEntry].  The two dependency fields are Go maps, that is
    references to map objects ([nil] when the field was absent). *)
Record YarnLockfileEntry := mkEntry {
  Version : string;
  Resolved : string;
  Integrity : string;
  Dependencies : ptr;
  OptionalDependencies : ptr
}.

Inductive object :=
| OEntry (e : YarnLockfileEntry)
    (* the target of a [*YarnLockfileEntry] *)
| OLock (m : gmap string ptr)
    (* a [BerryLockfile], that is a [map[string]*YarnLockfileEntry] *)
| ODeps (m : gmap string string).
    (* a [map[string]string] *)

Abbreviation heap := (gmap positive object) (only parsing).

(** Go errors.  [Wrap] is [errors.Wrap(cause, msg)] of github.com/pkg/errors
    and [Errorf_w] is [fmt.Errorf(prefix + "%w", cause)]. *)
Inductive error :=
| LibError (msg : string)
| Wrap (cause : error) (msg : string)
| Errorf_w (prefix : string) (cause : error).

(** The method [Error()]. *)
Fixpoint Error (e : error) : string :=
  match e with
  | LibError msg => msg
  | Wrap cause msg => msg ++ ": " ++ Error cause
  | Errorf_w prefix cause => prefix ++ Error cause
  end.

(** Computations on the heap.  [None] is a run-time panic (a nil
    dereference, or a write to a nil map). *)
Definition M (A : Type) : Type := heap -> option (A * heap).

Definition ret {A} (a : A) : M A := fun h => Some (a, h).

Definition bind {A B} (c : M A) (k : A -> M B) : M B :=
  fun h => match c h with
           | Some (a, h') => k a h'
           | None => None
           end.

Declare Scope go_scope.
Delimit Scope go_scope with go.
Notation "x <- c ;; k" := (bind c (fun x => k))
  (at level 100, c at next level, right associativity) : go_scope.
Notation "c ;;; k" := (bind c (fun _ => k))
  (at level 100, right associativity) : go_scope.
Local Open Scope go_scope.

(** Allocation of a new object at an unused address. *)
Definition alloc (o : object) : M addr :=
  fun h => let a := fresh (dom h) in Some (a, <[a := o]> h).

(** [*p] for [p : *YarnLockfileEntry]. *)
Definition derefEntry (p : ptr) : M YarnLockfileEntry :=
  fun h => match p with
           | Some a => match h !! a with
                       | Some (OEntry e) => Some (e, h)
                       | _ => None
                       end
           | None => None
           end.

(** [entry, ok := l[key]] through the receiver pointer: the result is
    [None] when [ok] is false. *)
Definition lockIndex (l : addr) (key : string) : M (option ptr) :=
  fun h => match h !! l with
           | Some (OLock m) => Some (m !! key, h)
           | _ => None
           end.

(** [lockfile[key] = entry] *)
Definition lockStore (l : addr) (key : string) (entry : ptr) : M unit :=
  fun h => match h !! l with
           | Some (OLock m) => Some (tt, <[l := OLock (<[key := entry]> m)]> h)
           | _ => None
           end.

(** [deps[name] = version] *)
Definition depsStore (deps : addr) (name version : string) : M unit :=
  fun h => match h !! deps with
           | Some (ODeps d) => Some (tt, <[deps := ODeps (<[name := version]> d)]> h)
           | _ => None
           end.

(** [for _, x := range xs { body x }] over a slice. *)
Fixpoint forEach {A} (xs : list A) (body : A -> M unit) : M unit :=
  match xs with
  | [] => ret tt
  | x :: rest => body x ;;; forEach rest body
  end.

(** ** The document a lockfile denotes (what the YAML library sees) *)

(** The value of one block: the fields of [YarnLockfileEntry] with the
    dependency maps read through their references. *)
Record block := mkBlock {
  bVersion : string;
  bResolved : string;
  bIntegrity : string;
  bDependencies : option (gmap string string);
  bOptionalDependencies : option (gmap string string)
}.

(** A document: for each top-level key a block, or [None] for a YAML null
    (decoded to a nil entry pointer). *)
Abbreviation document := (gmap string (option block)) (only parsing).

Definition readDeps (m : ptr) : M (option (gmap string string)) :=
  fun h => match m with
           | None => Some (None, h)
           | Some a => match h !! a with
                       | Some (ODeps d) => Some (Some d, h)
                       | _ => None
                       end
           end.

Definition readBlock (p : ptr) : M (option block) :=
  match p with
  | None => ret None
  | Some _ =>
    e <- derefEntry p ;;
    d <- readDeps (Dependencies e) ;;
    o <- readDeps (OptionalDependencies e) ;;
    ret (Some (mkBlock (Version e) (Resolved e) (Integrity e) d o))
  end.

Fixpoint readBlocks (xs : list (string * ptr)) : M (list (string * option block)) :=
  match xs with
  | [] => ret []
  | (k, p) :: rest =>
    b <- readBlock p ;;
    bs <- readBlocks rest ;;
    ret ((k, b) :: bs)
  end.

(** The document of the lockfile at [l]. *)
Definition snapshot (l : addr) : M document :=
  fun h => match h !! l with
           | Some (OLock m) =>
             (bs <- readBlocks (map_to_list m) ;; ret (list_to_map bs)) h
           | _ => None
           end.

Definition allocDeps (d : option (gmap string string)) : M ptr :=
  match d with
  | None => ret None
  | Some m => a <- alloc (ODeps m) ;; ret (Some a)
  end.

(** The decoder's allocation of one value: a fresh entry with fresh
    dependency maps for a block, [nil] for a null. *)
Definition allocBlock (b : option block) : M ptr :=
  match b with
  | None => ret None
  | Some b =>
    d <- allocDeps (bDependencies b) ;;
    o <- allocDeps (bOptionalDependencies b) ;;
    a <- alloc (OEntry (mkEntry (bVersion b) (bResolved b) (bIntegrity b) d o)) ;;
    ret (Some a)
  end.

(** ** bufio.Scanner with the default line splitter *)

Module Bufio.

(** The lines of [data]: it is cut at every newline; what follows the
    last newline is a line too unless it is empty.  [cur] holds the
    bytes of the current line, most recent first. *)
Fixpoint lines_from (cur : string) (data : string) : list string :=
  match data with
  | EmptyString =>
    match cur with
    | EmptyString => []
    | _ => [String.rev cur]
    end
  | String c rest =>
    if byte_is c 10
    then String.rev cur :: lines_from EmptyString rest
    else lines_from (String c cur) rest
  end.

Definition rawLines (data : string) : list string := lines_from EmptyString data.

(** [dropCR]: a trailing carriage return is not part of the token. *)
Definition dropCR (line : string) : string :=
  match String.rev line with
  | String c r => if byte_is c 13 then String.rev r else line
  | EmptyString => line
  end.

(** A line and its terminator must fit a buffer of [max] bytes. *)
Definition fits (max : N) (line : string) : bool :=
  N.ltb (N.of_nat (String.length line)) max.

Fixpoint takeFitting (max : N) (lines : list string) : list string :=
  match lines with
  | [] => []
  | line :: rest =>
    if fits max line then line :: takeFitting max rest else []
  end.

(** The tokens [Scan] yields for [data] with [ScanLines] and a maximum
    token size [max]: at the first line that does not fit, [Scan]
    reports [ErrTooLong] and returns false, which ends the loop of the
    caller. *)
Definition Lines (max : N) (data : string) : list string :=
  dropCR <$> takeFitting max (rawLines data).

End Bufio.

(** ** gopkg.in/yaml.v3 on a fragment

    The lockfile code hands documents to the YAML library and reads them
    back from it.  The theorems below take the library as a parameter;
    this module gives its behaviour on a fragment, for running the code
    on sample data: block mappings two levels deep whose scalars are plain
    or double-quoted without escapes.  A document or text outside the
    fragment is answered with an error value. *)

Module YamlFragment.

Definition code (c : ascii) : N := N_of_ascii c.

Definition isDigit (c : ascii) : bool := N.leb 48 (code c) && N.leb (code c) 57.

Definition isLetter (c : ascii) : bool :=
  (N.leb 65 (code c) && N.leb (code c) 90)
  || (N.leb 97 (code c) && N.leb (code c) 122).

(** The value and the length of the run of digits at the front of [s],
    continuing the value [acc]. *)
Fixpoint digitsValue (acc : N) (s : string) : N * nat :=
  match s with
  | String c r =>
    if isDigit c
    then let '(v, n) := digitsValue (acc * 10 + (code c - 48)) r in (v, S n)
    else (acc, O)
  | EmptyString => (acc, O)
  end.

(** [keyList.Less] on two string keys: letters sort before other bytes,
    runs of digits compare as numbers.  [nz] tells whether the run of
    digits just before the current position has a digit other than 0,
    [digits] whether the previous byte was a digit. *)
Fixpoint less_from (nz digits : bool) (a b : string) : bool :=
  match a, b with
  | EmptyString, EmptyString => false
  | EmptyString, String _ _ => true
  | String _ _, EmptyString => false
  | String x a', String y b' =>
    if Ascii.eqb x y
    then less_from (isDigit x && (nz || negb (byte_is x 48))) (isDigit x) a' b'
    else
      let al := isLetter x in
      let bl := isLetter y in
      if al && bl then N.ltb (code x) (code y)
      else if al || bl then (if digits then al else bl)
      else
        let init := if (byte_is x 48 || byte_is y 48) && nz then 1%N else 0%N in
        let '(an, ai) := digitsValue init a in
        let '(bn, bi) := digitsValue init b in
        if negb (N.eqb an bn) then N.ltb an bn
        else if negb (Nat.eqb ai bi) then Nat.ltb ai bi
        else N.ltb (code x) (code y)
  end.

Definition Less (a b : string) : bool := less_from false false a b.

(** [sort.Sort] of the keys, as an insertion sort (the keys of a map
    are distinct, so stability plays no part). *)
Fixpoint insertKey {V} (kv : string * V) (sorted : list (string * V)) :=
  match sorted with
  | [] => [kv]
  | kv' :: rest =>
    if Less (fst kv') (fst kv) then kv' :: insertKey kv rest else kv :: sorted
  end.

Definition sortKeys {V} (kvs : list (string * V)) : list (string * V) :=
  foldr insertKey [] kvs.

(** Bytes that do not force quoting inside a scalar of a block
    mapping (a colon does when a space or the end follows it). *)
Definition safeChar (c : ascii) : bool :=
  isLetter c || isDigit c
  || byte_is c 64 (* @ *) || byte_is c 94 (* ^ *) || byte_is c 46 (* . *)
  || byte_is c 47 (* / *) || byte_is c 95 (* _ *) || byte_is c 45 (* - *)
  || byte_is c 58 (* : *).

Definition endsWithColon (s : string) : bool :=
  match String.rev s with
  | String c _ => byte_is c 58
  | EmptyString => false
  end.

Fixpoint allChars (p : ascii -> bool) (s : string) : bool :=
  match s with
  | EmptyString => true
  | String c r => p c && allChars p r
  end.

Fixpoint countChar (n : N) (s : string) : nat :=
  match s with
  | EmptyString => O
  | String c r => (if byte_is c n then 1 else 0) + countChar n r
  end.

(** Words the resolver reads as booleans or null; the encoder quotes
    them. *)
Definition reserved : list string :=
  ["y"; "Y"; "yes"; "Yes"; "YES"; "n"; "N"; "no"; "No"; "NO";
   "on"; "On"; "ON"; "off"; "Off"; "OFF";
   "true"; "True"; "TRUE"; "false"; "False"; "FALSE";
   "null"; "Null"; "NULL"].

(** Strings of the fragment that the encoder writes as plain scalars: a
    word of safe bytes that starts with a letter and is not reserved, a
    caret range, or a dotted version with at least two dots (which is
    no number). *)
Definition plainScalar (s : string) : bool :=
  match s with
  | EmptyString => false
  | String c r =>
    allChars safeChar s && negb (endsWithColon s)
    && ((isLetter c && negb (bool_decide (s ∈ reserved)))
        || (byte_is c 94 && allChars safeChar r)
        || (isDigit c && allChars (fun x => isDigit x || byte_is x 46) s
            && Nat.leb 2 (countChar 46 s)))
  end.

(** A word that can stand as a plain scalar in the text. *)
Definition plainToken (s : string) : bool :=
  match s with
  | EmptyString => false
  | _ => allChars safeChar s && negb (endsWithColon s)
  end.

Definition outside : error := LibError "yaml: outside the modelled fragment".

(** A string as the encoder writes it: plain when it reads back as a
    string, in double quotes when it is empty, reserved or a run of
    digits (which would read back as null, a boolean or a number). *)
Definition renderScalar (s : string) : option string :=
  match s with
  | EmptyString => Some (dquote ++ dquote)
  | _ =>
    if plainScalar s then Some s
    else if bool_decide (s ∈ reserved) || allChars isDigit s
    then Some (dquote ++ s ++ dquote)
    else None
  end.

(** A string with line breaks is written in literal style: the
    indicator [|] with its chomping sign ([-] when the string does not
    end in a line break, [+] when it ends in more than one), then the
    lines, indented two more than the key; an empty line is written
    without indentation. *)
Definition renderLiteral (indent : string) (s : string) : option string :=
  let ps := Split s nl in
  let '(chomp, lines) :=
    match reverse ps with
    | EmptyString :: EmptyString :: before => ("+", reverse (EmptyString :: before))
    | EmptyString :: before => (EmptyString, reverse before)
    | _ => ("-", ps)
    end in
  match ps with
  | first :: _ :: _ =>
    if plainToken first && forallb (allChars safeChar) ps
    then Some ("|" ++ chomp
               ++ foldr (fun p acc =>
                           nl ++ (if isEmpty p then EmptyString else indent ++ "  " ++ p)
                           ++ acc) EmptyString lines)
    else None
  | _ => None
  end.

(** The value of a pair. *)
Definition renderValue (indent : string) (s : string) : option string :=
  if hasByte 10 s then renderLiteral indent s else renderScalar s.

Fixpoint emitPairs (indent : string) (kvs : list (string * string)) : option string :=
  match kvs with
  | [] => Some EmptyString
  | (k, v) :: rest =>
    match renderScalar k, renderValue indent v, emitPairs indent rest with
    | Some k', Some v', Some rest' => Some (indent ++ k' ++ ": " ++ v' ++ nl ++ rest')
    | _, _, _ => None
    end
  end.

(** A map field with [omitempty]: absent when nil or empty. *)
Definition emitDeps (field : string) (d : option (gmap string string)) : option string :=
  match d with
  | None => Some EmptyString
  | Some m =>
    match sortKeys (map_to_list m) with
    | [] => Some EmptyString
    | kvs =>
      match emitPairs "    " kvs with
      | Some body => Some ("  " ++ field ++ ":" ++ nl ++ body)
      | None => None
      end
    end
  end.

Definition emitBlock (b : block) : option string :=
  match emitPairs "  " [("version", bVersion b); ("resolved", bResolved b);
                         ("integrity", bIntegrity b)],
        emitDeps "dependencies" (bDependencies b),
        emitDeps "optionalDependencies" (bOptionalDependencies b) with
  | Some fields, Some deps, Some opt => Some (fields ++ deps ++ opt)
  | _, _, _ => None
  end.

Fixpoint emitBlocks (kbs : list (string * option block)) : option string :=
  match kbs with
  | [] => Some EmptyString
  | (k, b) :: rest =>
    match renderScalar k, emitBlocks rest with
    | Some k', Some rest' =>
      match b with
      | None => Some (k' ++ ": null" ++ nl ++ rest')
      | Some b =>
        match emitBlock b with
        | Some body => Some (k' ++ ":" ++ nl ++ body ++ rest')
        | None => None
        end
      end
    | _, _ => None
    end
  end.

(** What an encoder with indent 2 writes for a document: the blocks in
    the order of the sorted keys; an empty mapping is written in flow
    style. *)
Definition emit (doc : gmap string (option block)) : error + string :=
  match sortKeys (map_to_list doc) with
  | [] => inr ("{}" ++ nl)
  | kbs => match emitBlocks kbs with
           | Some text => inr text
           | None => inl outside
           end
  end.

(** *** Reading *)

Fixpoint dropSpaces (n : nat) (s : string) : nat * string :=
  match s with
  | String c r => if byte_is c 32 then dropSpaces (S n) r else (n, s)
  | EmptyString => (n, s)
  end.

(** The text up to the closing double quote, and what follows it. *)
Fixpoint untilQuote (acc : string) (s : string) : option (string * string) :=
  match s with
  | EmptyString => None
  | String c r =>
    if byte_is c 34 then Some (String.rev acc, r)
    else if byte_is c 92 then None
    else untilQuote (String c acc) r
  end.

(** The plain text up to a colon that ends the key (a colon followed
    by a space or by the end of the line), and what follows the colon. *)
Fixpoint untilColon (acc : string) (s : string) : option (string * string) :=
  match s with
  | EmptyString => None
  | String c r =>
    if byte_is c 58
    then match r with
         | EmptyString => Some (String.rev acc, r)
         | String c' _ =>
           if byte_is c' 32 then Some (String.rev acc, r)
           else untilColon (String c acc) r
         end
    else untilColon (String c acc) r
  end.

(** A scalar token read as a string: double-quoted text, or a plain
    word ([null] and [~] give the zero string). *)
Definition readScalar (tok : string) : option string :=
  match tok with
  | String c r =>
    if byte_is c 34
    then match untilQuote EmptyString r with
         | Some (s, EmptyString) => Some s
         | _ => None
         end
    else if bool_decide (tok ∈ ["null"; "~"]) then Some EmptyString
    else if plainToken tok then Some tok
    else None
  | EmptyString => None
  end.

(** One line [key: value] or [key:]: the key and the value token. *)
Definition readEntry (content : string) : option (string * option string) :=
  match content with
  | String c r =>
    let keyed :=
      if byte_is c 34
      then match untilQuote EmptyString r with
           | Some (k, String c' rest) =>
             if byte_is c' 58 then Some (k, rest) else None
           | _ => None
           end
      else match untilColon EmptyString content with
           | Some (k, rest) => if plainToken k then Some (k, rest) else None
           | None => None
           end in
    match keyed with
    | Some (k, EmptyString) => Some (k, None)
    | Some (k, String c' v) => if byte_is c' 32 then Some (k, Some v) else None
    | None => None
    end
  | EmptyString => None
  end.

Record pstate := mkP {
  pdoc : gmap string (option block);
  pkey : option string;      (* the block being read *)
  pseen : bool;              (* whether it has a line so far *)
  pblk : block;
  psub : option string       (* the nested map being read *)
}.

Definition emptyBlock : block :=
  mkBlock EmptyString EmptyString EmptyString None None.

(** Closes the block being read; a key with nothing under it is a
    null. *)
Definition flush (st : pstate) : error + gmap string (option block) :=
  match pkey st with
  | None => inr (pdoc st)
  | Some k =>
    match pdoc st !! k with
    | Some _ => inl (LibError "yaml: mapping key already defined")
    | None => inr (<[k := if pseen st then Some (pblk st) else None]> (pdoc st))
    end
  end.

Definition setField (b : block) (field value : string) : block :=
  if String.eqb field "version"
  then mkBlock value (bResolved b) (bIntegrity b) (bDependencies b) (bOptionalDependencies b)
  else if String.eqb field "resolved"
  then mkBlock (bVersion b) value (bIntegrity b) (bDependencies b) (bOptionalDependencies b)
  else if String.eqb field "integrity"
  then mkBlock (bVersion b) (bResolved b) value (bDependencies b) (bOptionalDependencies b)
  else b.

Definition addDep (b : block) (field name value : string) : block :=
  if String.eqb field "dependencies"
  then mkBlock (bVersion b) (bResolved b) (bIntegrity b)
               (Some (<[name := value]> (default ∅ (bDependencies b))))
               (bOptionalDependencies b)
  else if String.eqb field "optionalDependencies"
  then mkBlock (bVersion b) (bResolved b) (bIntegrity b) (bDependencies b)
               (Some (<[name := value]> (default ∅ (bOptionalDependencies b))))
  else b.

Definition syntaxError : error := LibError "yaml: did not find expected key".

Definition step (st : pstate) (line : string) : error + pstate :=
  let '(indent, content) := dropSpaces O line in
  match content with
  | EmptyString => inr st
  | String c _ =>
    if byte_is c 35 then inr st else
    match readEntry content with
    | None => inl syntaxError
    | Some (key, value) =>
      match indent with
      | 0 =>
        match flush st with
        | inl e => inl e
        | inr doc =>
          match value with
          | None => inr (mkP doc (Some key) false emptyBlock None)
          | Some v =>
            if bool_decide (v ∈ ["null"; "~"])
            then inr (mkP doc (Some key) false emptyBlock None)
            else inl (LibError "yaml: cannot unmarshal !!str into lockfile.YarnLockfileEntry")
          end
        end
      | 2 =>
        match pkey st, value with
        | None, _ => inl syntaxError
        | Some k, Some v =>
          match readScalar v with
          | Some s => inr (mkP (pdoc st) (Some k) true (setField (pblk st) key s) None)
          | None => inl outside
          end
        | Some k, None => inr (mkP (pdoc st) (Some k) true (pblk st) (Some key))
        end
      | 4 =>
        match pkey st, psub st, value with
        | Some k, Some field, Some v =>
          match readScalar v with
          | Some s =>
            inr (mkP (pdoc st) (Some k) true (addDep (pblk st) field key s) (Some field))
          | None => inl outside
          end
        | _, _, _ => inl syntaxError
        end
      | _ => inl outside
      end
    end
  end.

Fixpoint steps (st : pstate) (lines : list string) : error + pstate :=
  match lines with
  | [] => inr st
  | line :: rest =>
    match step st line with
    | inl e => inl e
    | inr st' => steps st' rest
    end
  end.

(** What [yaml.Unmarshal] reads from a text into a
    [map[string]*YarnLockfileEntry]: fields the struct does not have
    are skipped. *)
Definition parse (text : string) : error + gmap string (option block) :=
  match steps (mkP ∅ None false emptyBlock None) (Split text nl) with
  | inl e => inl e
  | inr st => flush st
  end.

End YamlFragment.

(** ** Well-formed lockfiles *)

(** A dependency field is nil or refers to a [map[string]string]. *)
Definition depsOk (h : heap) (m : ptr) : bool :=
  match m with
  | None => true
  | Some a => match h !! a with Some (ODeps _) => true | _ => false end
  end.

(** An entry pointer of a lockfile refers to an entry (it is not nil)
    whose dependency fields are well-formed. *)
Definition entryOk (h : heap) (p : ptr) : bool :=
  match p with
  | Some a =>
    match h !! a with
    | Some (OEntry e) => depsOk h (Dependencies e) && depsOk h (OptionalDependencies e)
    | _ => false
    end
  | None => false
  end.

(** [l] is a lockfile: a map from keys to entries. *)
Definition lockfileOk (h : heap) (l : addr) : bool :=
  match h !! l with
  | Some (OLock m) => forallb (fun kv => entryOk h (snd kv)) (map_to_list m)
  | _ => false
  end.

(** The contents of a dependency field; ranging over a nil map visits
    nothing. *)
Definition depsOf (h : heap) (m : ptr) : gmap string string :=
  match m with
  | Some a => match h !! a with Some (ODeps d) => d | _ => ∅ end
  | None => ∅
  end.

(** The value of a dependency field and of an entry pointer, read off the
    heap: what [readDeps] and [readBlock] compute. *)
Definition depsVal (h : gmap positive object) (m : option positive)
  : option (gmap string string) :=
  match m with
  | Some a => match h !! a with Some (ODeps d) => Some d | _ => None end
  | None => None
  end.

Definition blockOf (h : gmap positive object) (p : option positive) : option block :=
  match p with
  | Some a =>
    match h !! a with
    | Some (OEntry e) =>
      Some (mkBlock (Version e) (Resolved e) (Integrity e)
                    (depsVal h (Dependencies e)) (depsVal h (OptionalDependencies e)))
    | _ => None
    end
  | None => None
  end.

Definition docOf (h : gmap positive object) (m : gmap string (option positive))
  : gmap string (option block) :=
  blockOf h <$> m.

(** ** The layout of the output, line by line *)

(** A single quote becomes a double quote, every other byte stays. *)
Definition quoteChar (c : ascii) : ascii :=
  if byte_is c 39 then ascii_of_nat 34 else c.

Fixpoint normalize (line : string) : string :=
  match line with
  | EmptyString => EmptyString
  | String c r => String (quoteChar c) (normalize r)
  end.

(** The lines written for the scanned lines: a line that does not start
    with a space gets an empty line before it. *)
Fixpoint outLines (lines : list string) : list string :=
  match lines with
  | [] => []
  | line :: rest =>
    if HasPrefix line " "
    then normalize line :: outLines rest
    else EmptyString :: normalize line :: outLines rest
  end.

(** Lines as text: each followed by a newline. *)
Fixpoint unlines (lines : list string) : string :=
  match lines with
  | [] => EmptyString
  | line :: rest => line ++ nl ++ unlines rest
  end.


(** ** Predicates used in the statements *)

(** The canonical keys a raw key stands for. *)
Definition pieces (key : string) : list string := TrimSpace <$> Split key ", ".

(** No canonical key is claimed by two different raw keys. *)
Definition aliasesDisjoint (keys : list string) : bool :=
  forallb (fun k1 =>
    forallb (fun k2 =>
      String.eqb k1 k2
      || forallb (fun c => negb (bool_decide (c ∈ pieces k2))) (pieces k1))
      keys) keys.

(** Every key is canonical: it stands for itself alone. *)
Definition canonicalKeys (keys : list string) : bool :=
  forallb (fun k => bool_decide (pieces k = [k])) keys.


(** [sub] occurs in [s]. *)
Fixpoint contains (s sub : string) : bool :=
  HasPrefix s sub
  || match s with
     | String _ r => contains r sub
     | EmptyString => false
     end.

(** An error message that points at a corrupted lockfile or at merge
    conflicts. *)
Definition hintsCorruption (msg : string) : bool :=
  contains msg "corrupt" || contains msg "merge conflict".

(** ** Concrete collaborators *)

(** A candidate policy for [yarnPossibleKeys]: the plain key, then the
    key with the npm protocol. *)
Definition yarnKeys (name version : string) : list string :=
  [name ++ "@" ++ version; name ++ "@npm:" ++ version].

(** A [bytes.Buffer] as writer: every write succeeds and appends. *)
Definition bufferWrite (w : string) (s : string) : string * option error :=
  (w ++ s, None).

(** A writer that accepts a number of writes and then fails. *)
Definition limitedWrite (w : nat * string) (s : string) : (nat * string) * option error :=
  match fst w with
  | O => (w, Some (LibError "short write"))
  | S n => ((n, snd w ++ s), None)
  end.

Definition listOrder {V} (m : gmap string V) : list (string * V) := map_to_list m.

(** Another visiting order for [range]: by descending key. *)
Definition descending {V} (m : gmap string V) : list (string * V) :=
  reverse (YamlFragment.sortKeys (map_to_list m)).

(** ** Sample data *)

(** A decoded lockfile at address 1: the keys [a@^1.0.0] and [a@^1.1.0]
    share the entry at 2, [b@npm:2.0.0] has the entry at 3; the entry at 2
    lists [z] both as a dependency and as an optional dependency. *)
Definition sampleLock : gmap string (option positive) :=
  list_to_map [("a@^1.0.0", Some 2%positive);
               ("a@^1.1.0", Some 2%positive);
               ("b@npm:2.0.0", Some 3%positive)].

Definition sampleHeap : gmap positive object :=
  list_to_map
    [(1%positive, OLock sampleLock);
     (2%positive, OEntry (mkEntry "1.1.3" "https://registry/a-1.1.3.tgz" "sha512-aa"
                                  (Some 4%positive) (Some 5%positive)));
     (3%positive, OEntry (mkEntry "2.0.0" "https://registry/b-2.0.0.tgz" "sha512-bb"
                                  None None));
     (4%positive, ODeps (list_to_map [("x", "^1.0.0"); ("z", "^3.0.0")]));
     (5%positive, ODeps (list_to_map [("y", "^2.0.0"); ("z", "^4.0.0")]))].





(** A lockfile without packages. *)
Definition emptyHeap : gmap positive object := {[1%positive := OLock ∅]}.

(** A lockfile text with a key that has nothing under it. *)
Definition nullText : string :=
  "a@1:" ++ nl
  ++ "b@1:" ++ nl
  ++ "  version: 2.0.0" ++ nl.

(** A lockfile text with a block under two aliases. *)
Definition aliasText : string :=
  dquote ++ "a@^1.0.0, a@^1.1.0" ++ dquote ++ ":" ++ nl
  ++ "  version: 1.1.3" ++ nl
  ++ "  resolved: https://registry/a-1.1.3.tgz" ++ nl
  ++ "  dependencies:" ++ nl
  ++ "    x: ^1.0.0" ++ nl
  ++ "b@2.0.0:" ++ nl
  ++ "  version: 2.0.0" ++ nl.

Definition aliasDoc : gmap string (option block) :=
  list_to_map
    [("a@^1.0.0, a@^1.1.0",
      Some (mkBlock "1.1.3" "https://registry/a-1.1.3.tgz" EmptyString
                    (Some {["x" := "^1.0.0"]}) None));
     ("b@2.0.0", Some (mkBlock "2.0.0" EmptyString EmptyString None None))].

(** A lockfile text in which the canonical key [b@1] is claimed by two
    raw keys. *)
Definition clashText : string :=
  dquote ++ "a@1, b@1" ++ dquote ++ ":" ++ nl
  ++ "  version: 1.0.0" ++ nl
  ++ "b@1:" ++ nl
  ++ "  version: 2.0.0" ++ nl.

Definition clashDoc : gmap string (option block) :=
  list_to_map
    [("a@1, b@1", Some (mkBlock "1.0.0" EmptyString EmptyString None None));
     ("b@1", Some (mkBlock "2.0.0" EmptyString EmptyString None None))].

(** A lockfile text with the markers of an unresolved merge. *)
Definition conflictText : string :=
  "<<<<<<< HEAD" ++ nl
  ++ "a@1:" ++ nl
  ++ "  version: 1.0.0" ++ nl
  ++ "=======" ++ nl
  ++ "a@1:" ++ nl
  ++ "  version: 1.0.1" ++ nl
  ++ ">>>>>>> branch" ++ nl.

(** A lockfile text that lists [b@1] before [a@1]. *)
Definition unsortedText : string :=
  "b@1:" ++ nl
  ++ "  version: 2.0.0" ++ nl
  ++ "a@1:" ++ nl
  ++ "  version: 1.0.0" ++ nl.

Definition unsortedDoc : gmap string (option block) :=
  list_to_map
    [("b@1", Some (mkBlock "2.0.0" EmptyString EmptyString None None));
     ("a@1", Some (mkBlock "1.0.0" EmptyString EmptyString None None))].

(** ** The lockfile operations *)

Section BerryLockfile.

(** [yarnPossibleKeys(name, version)]: the candidate keys, defined with
    the Yarn 1 lockfile of the same package. *)
Variable yarnPossibleKeys : string -> string -> list string.

(** gopkg.in/yaml.v3, on documents: [yaml_parse] is what [yaml.Unmarshal]
    reads from the bytes, [yaml_emit] is what an encoder with indent 2
    writes for a document. *)
Variable yaml_parse : string -> error + document.
Variable yaml_emit : document -> error + string.

(** The order in which [range] visits a lockfile map and a dependency
    map: Go leaves it open, so it is any enumeration of the bindings. *)
Variable lockOrder : gmap string ptr -> list (string * ptr).
Variable depsOrder : gmap string string -> list (string * string).
Hypothesis lockOrder_perm : forall m, lockOrder m ≡ₚ map_to_list m.
Hypothesis depsOrder_perm : forall m, depsOrder m ≡ₚ map_to_list m.

(** An [io.Writer]: its state, and [io.WriteString]. *)
Variable sink : Type.
Variable WriteString : sink -> string -> sink * option error.

(** The bytes a sink has taken so far. *)
Variable written : sink -> string.

(** The bindings [for key, val := range lockfile] visits. *)
Definition lockRange (l : addr) : M (list (string * ptr)) :=
  fun h => match h !! l with
           | Some (OLock m) => Some (lockOrder m, h)
           | _ => None
           end.

(** The bindings [for name, version := range m] visits; a nil map has
    none. *)
Definition depsRange (m : ptr) : M (list (string * string)) :=
  fun h => match m with
           | None => Some ([], h)
           | Some a => match h !! a with
                       | Some (ODeps d) => Some (depsOrder d, h)
                       | _ => None
                       end
           end.

Fixpoint ResolvePackage_loop (l : addr) (keys : list string)
  : M (string * string * bool) :=
  match keys with
  | [] => ret (EmptyString, EmptyString, false)
  | key :: rest =>
    r <- lockIndex l key ;;
    match r with
    | Some entry => e <- derefEntry entry ;; ret (key, Version e, true)
    | None => ResolvePackage_loop l rest
    end
  end.

Definition ResolvePackage (l : addr) (name version : string)
  : M (string * string * bool) :=
  ResolvePackage_loop l (yarnPossibleKeys name version).

Definition copyDeps (deps : addr) (src : ptr) : M unit :=
  xs <- depsRange src ;;
  forEach xs (fun nv => depsStore deps (fst nv) (snd nv)).

Definition AllDependencies (l : addr) (key : string) : M (addr * bool) :=
  deps <- alloc (ODeps ∅) ;;
  r <- lockIndex l key ;;
  match r with
  | None => ret (deps, false)
  | Some entry =>
    e <- derefEntry entry ;;
    copyDeps deps (Dependencies e) ;;;
    copyDeps deps (OptionalDependencies e) ;;;
    ret (deps, true)
  end.

Definition Subgraph (l : addr) (_ : list string) (packages : list string)
  : M (addr * option error) :=
  lockfile <- alloc (OLock ∅) ;;
  forEach packages (fun key =>
    r <- lockIndex l key ;;
    match r with
    | Some entry => lockStore lockfile key entry
    | None => ret tt
    end) ;;;
  ret (lockfile, None).

Definition Patches (l : addr) : M (list string) := ret [].

Definition header : string :=
  "# This file is generated by running " ++ dquote ++ "yarn install" ++ dquote
  ++ " inside your project." ++ nl
  ++ "# Manual changes might be lost - proceed with caution!" ++ nl
  ++ nl
  ++ "__metadata:" ++ nl
  ++ "  version: 5" ++ nl
  ++ "  cacheKey: 8" ++ nl
  ++ nl.

Definition maxTokenSize : N := 10 * 1024 * 1024.

(** The string written for one scanned line. *)
Definition stringToWrite (line : string) : string :=
  if negb (HasPrefix line " ")
  then nl ++ ReplaceAll line squote dquote ++ nl
  else ReplaceAll line squote dquote ++ nl.

Fixpoint writeLines (w : sink) (lines : list string) : sink * option error :=
  match lines with
  | [] => (w, None)
  | line :: rest =>
    match WriteString w (stringToWrite line) with
    | (w', Some err) => (w', Some (Wrap err "failed to write to buffer"))
    | (w', None) => writeLines w' rest
    end
  end.

(** The second half of [Encode]: the header, then the lines of the
    intermediate buffer [tmp]. *)
Definition writeOutput (w : sink) (tmp : string) : sink * option error :=
  match WriteString w header with
  | (w', Some err) => (w', Some (Wrap err "failed to write to buffer"))
  | (w', None) => writeLines w' (Bufio.Lines maxTokenSize tmp)
  end.

Definition Encode (l : addr) (w : sink) : M (sink * option error) :=
  doc <- snapshot l ;;
  match yaml_emit doc with
  | inl err =>
    ret (w, Some (Wrap err "failed to materialize sub-lockfile. This can happen if your lockfile contains merge conflicts or is somehow corrupted. Please report this if it occurs"))
  | inr tmp => ret (writeOutput w tmp)
  end.

Definition yarnSplitOutEntries (lockfile : addr) : M addr :=
  prettyLockfile <- alloc (OLock ∅) ;;
  bindings <- lockRange lockfile ;;
  forEach bindings (fun kv =>
    forEach (Split (fst kv) ", ") (fun v =>
      lockStore prettyLockfile (TrimSpace v) (snd kv))) ;;;
  ret prettyLockfile.

(** [yaml.Unmarshal(contents, &lockfile)]: the parsed document stored
    as a new map with one new entry per block. *)
Definition yaml_Unmarshal (contents : string) : M (error + addr) :=
  match yaml_parse contents with
  | inl err => ret (inl err)
  | inr doc =>
    lockfile <- alloc (OLock ∅) ;;
    forEach (map_to_list doc) (fun kb =>
      p <- allocBlock (snd kb) ;; lockStore lockfile (fst kb) p) ;;;
    ret (inr lockfile)
  end.

Definition DecodeBerryLockfile (contents : string) : M (addr * option error) :=
  r <- yaml_Unmarshal contents ;;
  match r with
  | inl err =>
    empty <- alloc (OLock ∅) ;;
    ret (empty, Some (Errorf_w "could not unmarshal lockfile: " err))
  | inr lockfile =>
    prettyLockFile <- yarnSplitOutEntries lockfile ;;
    ret (prettyLockFile, None)
  end.

(** ** Definitions used in the statements and proofs *)

(** One turn of a copying loop of [AllDependencies], on the contents of
    the new map. *)
Definition put (acc : gmap string string) (nv : string * string) :=
  <[fst nv := snd nv]> acc.

(** One turn of the loop of [Subgraph], on the contents of the new map. *)
Definition keep (m : gmap string (option positive))
    (acc : gmap string (option positive)) (key : string) :=
  match m !! key with
  | Some entry => <[key := entry]> acc
  | None => acc
  end.

(** What [Encode] returns, from the result of the YAML encoder. *)
Definition encodeResult (w : sink) (r : error + string) : sink * option error :=
  match r with
  | inl err =>
    (w, Some (Wrap err "failed to materialize sub-lockfile. This can happen if your lockfile contains merge conflicts or is somehow corrupted. Please report this if it occurs"))
  | inr tmp => writeOutput w tmp
  end.

(** The writes of the inner and of the outer loop of
    [yarnSplitOutEntries], on the contents of the new map. *)
Definition splitKey (val : option positive)
    (acc : gmap string (option positive)) (pieces : list string) :=
  foldl (fun acc v => <[TrimSpace v := val]> acc) acc pieces.

Definition splitAll (acc : gmap string (option positive))
    (bindings : list (string * option positive)) :=
  foldl (fun acc kv => splitKey (snd kv) acc (Split (fst kv) ", ")) acc bindings.

(** Entries and dependency maps of [h] are the same in [h']. *)
Definition keeps (h h' : gmap positive object) : Prop :=
  forall a o, h !! a = Some o -> (forall m, o <> OLock m) -> h' !! a = Some o.



(** No block of the document is a null. *)
Definition noNulls (doc : gmap string (option block)) : bool :=
  forallb (fun kb => bool_decide (is_Some (snd kb))) (map_to_list doc).

(** [c] is no trimmed piece of any of the keys. *)
Definition notPiece (keys : list string) (c : string) : bool :=
  forallb (fun k => negb (bool_decide (c ∈ pieces k))) keys.

(** The message [Encode] gives when the YAML encoder fails. *)
Definition materializeMessage : string :=
  "failed to materialize sub-lockfile. This can happen if your lockfile contains merge conflicts or is somehow corrupted. Please report this if it occurs".

(** A sink that takes every write. *)
Definition reliable : Prop :=
  forall w0 s, exists w1, WriteString w0 s = (w1, None) /\ written w1 = written w0 ++ s.

(** ** More sample data *)

(** A map with a key bound to a nil entry pointer. *)
Definition nilLock : gmap string (option positive) :=
  list_to_map [("a@1", None); ("b@1", Some 2%positive)].

Definition nilHeap : gmap positive object :=
  list_to_map
    [(1%positive, OLock nilLock);
     (2%positive, OEntry (mkEntry "2.0.0" EmptyString EmptyString None None))].

(** [s] doubled [n] times. *)
Fixpoint double (n : nat) (s : string) : string :=
  match n with
  | O => s
  | S k => double k (s ++ s)
  end.

(** A line of 10 * 2^20 bytes, and a buffer that has it as its second
    line. *)
Definition bigLine : string := double 20 "xxxxxxxxxx".

Definition longTmp : string :=
  "a@1:" ++ nl ++ (bigLine ++ nl ++ ("b@1:" ++ nl)).

(** ** Predicates on keys *)

(** The last byte of [s] is [n]. *)
Fixpoint lastIs (n : N) (s : string) : bool :=
  match s with
  | EmptyString => false
  | String x r =>
    match r with
    | EmptyString => byte_is x n
    | _ => lastIs n r
    end
  end.

(** [s] starts with a white-space rune, as [trimLeft] reads it. *)
Definition startsWithSpace (s : string) : bool :=
  match s with
  | EmptyString => false
  | String b1 r1 =>
    asciiSpace b1
    || match r1 with
       | EmptyString => false
       | String b2 r2 =>
         space2 b1 b2
         || match r2 with
            | EmptyString => false
            | String b3 _ => space3 b1 b2 b3
            end
       end
  end.

(** The reversed string starts with a reversed white-space rune, as
    [trimLeft_rev] reads it: the string ends with white space. *)
Definition endsWithSpace_rev (s : string) : bool :=
  match s with
  | EmptyString => false
  | String b1 r1 =>
    asciiSpace b1
    || match r1 with
       | EmptyString => false
       | String b2 r2 =>
         space2 b2 b1
         || match r2 with
            | EmptyString => false
            | String b3 _ => space3 b3 b2 b1
            end
       end
  end.


(** ** Basic facts about the heap primitives *)

Lemma lockfileOk_inv h l :
  lockfileOk h l = true ->
  exists m, h !! l = Some (OLock m)
            /\ forall k p, m !! k = Some p -> entryOk h p = true.
Proof.
  unfold lockfileOk. destruct (h !! l) as [[e|m|d]|] eqn:Hl; try discriminate.
  intros Hall. exists m. split; [reflexivity|].
  intros k p Hk. rewrite forallb_forall in Hall.
  apply (Hall (k, p)). apply list_elem_of_In. by apply elem_of_map_to_list.
Qed.

Lemma entryOk_inv h p :
  entryOk h p = true ->
  exists a e, p = Some a /\ h !! a = Some (OEntry e)
              /\ depsOk h (Dependencies e) = true
              /\ depsOk h (OptionalDependencies e) = true.
Proof.
  destruct p as [a|]; simpl; [|discriminate].
  destruct (h !! a) as [[e|m|d]|] eqn:Ha; try discriminate.
  intros [H1 H2]%andb_prop. by exists a, e.
Qed.

Lemma fresh_not_allocated (h : heap) : h !! fresh (dom h) = None.
Proof. apply not_elem_of_dom. apply is_fresh. Qed.

Lemma fresh_ne (h : heap) a o : h !! a = Some o -> a <> fresh (dom h).
Proof. intros Ha ->. rewrite fresh_not_allocated in Ha. discriminate. Qed.

(** Running the primitives. *)

Lemma run_bind {A B} (c : M A) (k : A -> M B) h a h' :
  c h = Some (a, h') -> bind c k h = k a h'.
Proof. unfold bind. by intros ->. Qed.

Lemma run_lockIndex h l m key :
  h !! l = Some (OLock m) -> lockIndex l key h = Some (m !! key, h).
Proof. unfold lockIndex. by intros ->. Qed.

Lemma run_derefEntry h a e :
  h !! a = Some (OEntry e) -> derefEntry (Some a) h = Some (e, h).
Proof. unfold derefEntry. by intros ->. Qed.

Lemma run_lockStore h l m key p :
  h !! l = Some (OLock m) ->
  lockStore l key p h = Some (tt, <[l := OLock (<[key := p]> m)]> h).
Proof. unfold lockStore. by intros ->. Qed.

Lemma run_depsStore h d m name version :
  h !! d = Some (ODeps m) ->
  depsStore d name version h = Some (tt, <[d := ODeps (<[name := version]> m)]> h).
Proof. unfold depsStore. by intros ->. Qed.

Lemma run_alloc o h :
  alloc o h = Some (fresh (dom h), <[fresh (dom h) := o]> h).
Proof. reflexivity. Qed.

(** ** ResolvePackage *)

Lemma ResolvePackage_loop_absent h l m keys :
  h !! l = Some (OLock m) ->
  Forall (fun k => m !! k = None) keys ->
  ResolvePackage_loop l keys h = Some ((EmptyString, EmptyString, false), h).
Proof.
  intros Hl. induction 1 as [|k ks Hk _ IH]; [reflexivity|].
  simpl. rewrite (run_bind _ _ _ _ _ (run_lockIndex _ _ _ k Hl)). rewrite Hk. exact IH.
Qed.

Lemma ResolvePackage_loop_hit h l m pre k post a e :
  h !! l = Some (OLock m) ->
  Forall (fun k' => m !! k' = None) pre ->
  m !! k = Some (Some a) ->
  h !! a = Some (OEntry e) ->
  ResolvePackage_loop l (pre ++ k :: post)%list h = Some ((k, Version e, true), h).
Proof.
  intros Hl Hpre Hk Ha. induction Hpre as [|k' ks Hk' _ IH]; simpl.
  - rewrite (run_bind _ _ _ _ _ (run_lockIndex _ _ _ k Hl)), Hk.
    by rewrite (run_bind _ _ _ _ _ (run_derefEntry _ _ _ Ha)).
  - rewrite (run_bind _ _ _ _ _ (run_lockIndex _ _ _ k' Hl)), Hk'. exact IH.
Qed.


(** ** AllDependencies *)

Lemma forEach_depsStore xs : forall h d m,
  h !! d = Some (ODeps m) ->
  forEach xs (fun nv => depsStore d (fst nv) (snd nv)) h
  = Some (tt, <[d := ODeps (foldl put m xs)]> h).
Proof.
  induction xs as [|[n v] xs IH]; intros h d m Hd; simpl.
  - unfold ret. by rewrite insert_id.
  - rewrite (run_bind _ _ _ _ _ (run_depsStore _ _ _ n v Hd)).
    rewrite (IH _ d (<[n := v]> m)) by apply lookup_insert_eq.
    by rewrite insert_insert_eq.
Qed.

Lemma foldl_put_union xs : forall m,
  foldl put m xs = list_to_map (reverse xs) ∪ m.
Proof.
  induction xs as [|[n v] xs IH]; intros m; simpl.
  - by rewrite (left_id_L ∅ (∪)).
  - rewrite IH, reverse_cons, list_to_map_app. simpl.
    unfold put; simpl. rewrite insert_empty, <- (assoc_L (∪)).
    by rewrite insert_union_singleton_l.
Qed.

(** Copying a map binding by binding gives the same result in every
    visiting order: the bindings of the source, over what was there. *)
Lemma foldl_put_range (src m : gmap string string) xs :
  xs ≡ₚ map_to_list src -> foldl put m xs = src ∪ m.
Proof.
  intros Hperm. rewrite foldl_put_union. f_equal.
  rewrite <- (list_to_map_to_list src).
  apply list_to_map_proper.
  - rewrite reverse_Permutation, Hperm. apply NoDup_fst_map_to_list.
  - by rewrite reverse_Permutation.
Qed.

Lemma run_depsRange h src :
  depsOk h src = true ->
  exists xs, depsRange src h = Some (xs, h) /\ xs ≡ₚ map_to_list (depsOf h src).
Proof.
  unfold depsOk, depsRange, depsOf. destruct src as [a|].
  - destruct (h !! a) as [[e|m|d]|]; try discriminate. intros _.
    exists (depsOrder d). split; [reflexivity | apply depsOrder_perm].
  - intros _. exists []. split; [reflexivity|]. by rewrite map_to_list_empty.
Qed.

Lemma run_copyDeps h d m src :
  h !! d = Some (ODeps m) ->
  depsOk h src = true ->
  copyDeps d src h = Some (tt, <[d := ODeps (depsOf h src ∪ m)]> h).
Proof.
  intros Hd Hsrc. destruct (run_depsRange _ _ Hsrc) as (xs & Hrange & Hperm).
  unfold copyDeps. rewrite (run_bind _ _ _ _ _ Hrange).
  rewrite (forEach_depsStore _ _ _ _ Hd). by rewrite (foldl_put_range _ _ _ Hperm).
Qed.

(** Objects other than the new map are out of reach of the writes. *)
Lemma depsOk_insert_fresh h d o src :
  h !! d = None -> depsOk h src = true ->
  depsOk (<[d := o]> h) src = true /\ depsOf (<[d := o]> h) src = depsOf h src.
Proof.
  intros Hd. unfold depsOk, depsOf. destruct src as [a|]; [|done].
  destruct (h !! a) as [[e|m|x]|] eqn:Ha; try discriminate. intros _.
  assert (d <> a) by (intros ->; congruence).
  by rewrite lookup_insert_ne, Ha.
Qed.

Lemma AllDependencies_present h l m key a e :
  h !! l = Some (OLock m) ->
  m !! key = Some (Some a) ->
  h !! a = Some (OEntry e) ->
  depsOk h (Dependencies e) = true ->
  depsOk h (OptionalDependencies e) = true ->
  AllDependencies l key h
  = Some ((fresh (dom h), true),
          <[fresh (dom h) :=
              ODeps (depsOf h (OptionalDependencies e) ∪ depsOf h (Dependencies e))]> h).
Proof.
  intros Hl Hk Ha Hd Ho. unfold AllDependencies.
  rewrite (run_bind _ _ _ _ _ (run_alloc _ _)).
  set (d := fresh (dom h)).
  assert (Hfresh : h !! d = None) by apply fresh_not_allocated.
  assert (Hdl : d <> l) by (intros Heq; rewrite Heq in Hfresh; congruence).
  assert (Hda : d <> a) by (intros Heq; rewrite Heq in Hfresh; congruence).
  set (h1 := <[d := ODeps ∅]> h).
  assert (Hl1 : h1 !! l = Some (OLock m)) by (unfold h1; by rewrite lookup_insert_ne).
  assert (Ha1 : h1 !! a = Some (OEntry e)) by (unfold h1; by rewrite lookup_insert_ne).
  rewrite (run_bind _ _ _ _ _ (run_lockIndex _ _ _ key Hl1)), Hk.
  rewrite (run_bind _ _ _ _ _ (run_derefEntry _ _ _ Ha1)).
  destruct (depsOk_insert_fresh h d (ODeps ∅) _ Hfresh Hd) as [Hd1 Hd1'].
  rewrite (run_bind _ _ _ _ _
             (run_copyDeps h1 d ∅ _ (lookup_insert_eq _ _ _) Hd1)).
  subst h1. rewrite insert_insert_eq, Hd1', (right_id_L ∅ (∪)).
  set (D := depsOf h (Dependencies e)).
  destruct (depsOk_insert_fresh h d (ODeps D) _ Hfresh Ho) as [Ho1 Ho1'].
  rewrite (run_bind _ _ _ _ _
             (run_copyDeps (<[d := ODeps D]> h) d D _ (lookup_insert_eq _ _ _) Ho1)).
  by rewrite insert_insert_eq, Ho1'.
Qed.

Lemma AllDependencies_absent h l m key :
  h !! l = Some (OLock m) ->
  m !! key = None ->
  AllDependencies l key h
  = Some ((fresh (dom h), false), <[fresh (dom h) := ODeps ∅]> h).
Proof.
  intros Hl Hk. unfold AllDependencies.
  rewrite (run_bind _ _ _ _ _ (run_alloc _ _)).
  assert (Hl1 : <[fresh (dom h) := ODeps ∅]> h !! l = Some (OLock m)).
  { rewrite lookup_insert_ne; [done|]. intros Heq.
    by rewrite <- Heq, fresh_not_allocated in Hl. }
  by rewrite (run_bind _ _ _ _ _ (run_lockIndex _ _ _ key Hl1)), Hk.
Qed.


(** C10.  When a name is listed both in [Dependencies] and in
    [OptionalDependencies] of the entry of a key, [AllDependencies]
    still returns [true], and the returned map binds the name to the
    specifier of [OptionalDependencies]: the second loop writes last. *)
Theorem AllDependencies_optional_wins h l m key p e name v1 v2 :
  lockfileOk h l = true ->
  h !! l = Some (OLock m) ->
  m !! key = Some p ->
  derefEntry p h = Some (e, h) ->
  depsOf h (Dependencies e) !! name = Some v1 ->
  depsOf h (OptionalDependencies e) !! name = Some v2 ->
  exists d h' deps,
    AllDependencies l key h = Some ((d, true), h')
    /\ h' !! d = Some (ODeps deps)
    /\ deps !! name = Some v2.
Proof.
  intros Hok Hl Hk He _ Hv2.
  destruct (lockfileOk_inv _ _ Hok) as (m' & Hl' & Hent).
  assert (m' = m) as -> by congruence.
  destruct (entryOk_inv _ _ (Hent _ _ Hk)) as (a & e' & -> & Ha & Hd & Ho).
  rewrite (run_derefEntry _ _ _ Ha) in He. injection He as ->.
  eexists _, _, _. split; [|split].
  - by apply AllDependencies_present with (m := m) (a := a).
  - apply lookup_insert_eq.
  - by apply lookup_union_Some_l.
Qed.

(** ** Subgraph *)

Lemma forEach_keep h l s m packages : forall acc,
  l <> s ->
  h !! l = Some (OLock m) ->
  forEach packages (fun key =>
    r <- lockIndex l key ;;
    match r with
    | Some entry => lockStore s key entry
    | None => ret tt
    end) (<[s := OLock acc]> h)
  = Some (tt, <[s := OLock (foldl (keep m) acc packages)]> h).
Proof.
  induction packages as [|key packages IH]; intros acc Hls Hl; simpl; [done|].
  assert (Hl1 : <[s := OLock acc]> h !! l = Some (OLock m))
    by (by rewrite lookup_insert_ne).
  assert (Hbody : (r <- lockIndex l key ;;
                   match r with
                   | Some entry => lockStore s key entry
                   | None => ret tt
                   end) (<[s := OLock acc]> h)
                  = Some (tt, <[s := OLock (keep m acc key)]> h)).
  { rewrite (run_bind _ _ _ _ _ (run_lockIndex _ _ _ key Hl1)).
    unfold keep. destruct (m !! key) as [entry|].
    - rewrite (run_lockStore _ _ _ key entry (lookup_insert_eq _ _ _)).
      by rewrite insert_insert_eq.
    - reflexivity. }
  rewrite (run_bind _ _ _ _ _ Hbody). by apply IH.
Qed.

Lemma lookup_foldl_keep m packages : forall acc k,
  foldl (keep m) acc packages !! k
  = if decide (k ∈ packages)
    then match m !! k with Some entry => Some entry | None => acc !! k end
    else acc !! k.
Proof.
  induction packages as [|key packages IH]; intros acc k; cbn [foldl].
  - case_decide as Hin; [by apply not_elem_of_nil in Hin | done].
  - rewrite IH. unfold keep.
    destruct (decide (k = key)) as [->|Hne].
    + rewrite (decide_True (P := key ∈ key :: packages)) by apply list_elem_of_here.
      destruct (m !! key) as [entry|] eqn:Hk;
        case_decide; by rewrite ?lookup_insert_eq.
    + assert (Hacc : match m !! key with
                     | Some entry => <[key := entry]> acc
                     | None => acc
                     end !! k = acc !! k).
      { destruct (m !! key); [by rewrite lookup_insert_ne|done]. }
      rewrite Hacc.
      destruct (decide (k ∈ packages)) as [Hin|Hnin].
      * by rewrite decide_True by (by apply list_elem_of_further).
      * rewrite decide_False; [done|].
        intros [?|?]%elem_of_cons; congruence.
Qed.

Lemma run_Subgraph h l m paths packages :
  h !! l = Some (OLock m) ->
  Subgraph l paths packages h
  = Some ((fresh (dom h), None),
          <[fresh (dom h) := OLock (foldl (keep m) ∅ packages)]> h).
Proof.
  intros Hl. unfold Subgraph. rewrite (run_bind _ _ _ _ _ (run_alloc _ _)).
  by rewrite (run_bind _ _ _ _ _ (forEach_keep h l _ m packages ∅
                                    (fresh_ne _ _ _ Hl) Hl)).
Qed.

(** C4.  [Subgraph] returns, with a nil error, a new lockfile map whose
    keys are exactly the listed keys that the source has; each of them
    is bound to the very pointer the source binds it to, so the entries
    are shared; an empty list gives an empty map; everything that
    existed before is as it was. *)
Theorem Subgraph_filters h l m paths packages :
  h !! l = Some (OLock m) ->
  exists sub,
    Subgraph l paths packages h
    = Some ((fresh (dom h), None), <[fresh (dom h) := OLock sub]> h)
    /\ (forall k, sub !! k = if decide (k ∈ packages) then m !! k else None)
    /\ (forall k, k ∈ dom sub <-> k ∈ packages /\ k ∈ dom m)
    /\ (packages = [] -> sub = ∅).
Proof.
  intros Hl. exists (foldl (keep m) ∅ packages).
  assert (Hlookup : forall k, foldl (keep m) ∅ packages !! k
                              = if decide (k ∈ packages) then m !! k else None).
  { intros k. rewrite lookup_foldl_keep, lookup_empty.
    destruct (decide (k ∈ packages)); [|done]. by destruct (m !! k). }
  split; [|split; [exact Hlookup|split]].
  - by apply run_Subgraph.
  - intros k. rewrite !elem_of_dom, Hlookup.
    destruct (decide (k ∈ packages)) as [Hin|Hnin].
    + split; [by intros Hk | by intros [_ Hk]].
    + split; [intros [? ?]; discriminate | by intros [Hin _]].
  - by intros ->.
Qed.

(** ** Reading a lockfile as a document *)

Lemma run_readDeps h src :
  depsOk h src = true -> readDeps src h = Some (depsVal h src, h).
Proof.
  unfold depsOk, readDeps, depsVal. destruct src as [a|]; [|done].
  by destruct (h !! a) as [[e|m|d]|].
Qed.

Lemma run_readBlock h p :
  entryOk h p = true -> readBlock p h = Some (blockOf h p, h).
Proof.
  intros Hok. destruct (entryOk_inv _ _ Hok) as (a & e & -> & Ha & Hd & Ho).
  unfold readBlock, blockOf. rewrite Ha.
  rewrite (run_bind _ _ _ _ _ (run_derefEntry _ _ _ Ha)).
  rewrite (run_bind _ _ _ _ _ (run_readDeps _ _ Hd)).
  by rewrite (run_bind _ _ _ _ _ (run_readDeps _ _ Ho)).
Qed.

Lemma run_readBlocks h xs :
  Forall (fun kv => entryOk h (snd kv) = true) xs ->
  readBlocks xs h = Some (prod_map id (blockOf h) <$> xs, h).
Proof.
  induction 1 as [|[k p] xs Hp _ IH]; [done|]. simpl.
  rewrite (run_bind _ _ _ _ _ (run_readBlock _ _ Hp)).
  by rewrite (run_bind _ _ _ _ _ IH).
Qed.

Lemma run_snapshot h l m :
  lockfileOk h l = true ->
  h !! l = Some (OLock m) ->
  snapshot l h = Some (docOf h m, h).
Proof.
  intros Hok Hl. unfold snapshot. rewrite Hl.
  unfold lockfileOk in Hok. rewrite Hl in Hok.
  rewrite forallb_forall in Hok.
  assert (Hall : Forall (fun kv => entryOk h (snd kv) = true) (map_to_list m)).
  { apply Forall_forall. intros kv Hkv. apply Hok. by apply list_elem_of_In. }
  rewrite (run_bind _ _ _ _ _ (run_readBlocks h (map_to_list m) Hall)).
  unfold ret, docOf. do 2 f_equal.
  rewrite list_to_map_fmap. by rewrite list_to_map_to_list.
Qed.

(** ** Encode reads the lockfile and writes to the sink only *)

Lemma run_Encode h l m w :
  lockfileOk h l = true ->
  h !! l = Some (OLock m) ->
  Encode l w h = Some (encodeResult w (yaml_emit (docOf h m)), h).
Proof.
  intros Hok Hl. unfold Encode.
  rewrite (run_bind _ _ _ _ _ (run_snapshot _ _ _ Hok Hl)).
  unfold encodeResult. by destruct (yaml_emit (docOf h m)).
Qed.

Lemma ResolvePackage_loop_total h l keys :
  lockfileOk h l = true ->
  exists r, ResolvePackage_loop l keys h = Some (r, h).
Proof.
  intros Hok. destruct (lockfileOk_inv _ _ Hok) as (m & Hl & Hent).
  induction keys as [|key keys IH]; simpl; [by eexists|].
  rewrite (run_bind _ _ _ _ _ (run_lockIndex _ _ _ key Hl)).
  destruct (m !! key) as [p|] eqn:Hk; [|exact IH].
  destruct (entryOk_inv _ _ (Hent _ _ Hk)) as (a & e & -> & Ha & _).
  rewrite (run_bind _ _ _ _ _ (run_derefEntry _ _ _ Ha)). by eexists.
Qed.

Lemma insert_fresh_preserves (h : gmap positive object) o a x :
  h !! a = Some x -> <[fresh (dom h) := o]> h !! a = Some x.
Proof.
  intros Ha. rewrite lookup_insert_ne; [done|].
  intros Heq. by rewrite <- Heq, fresh_not_allocated in Ha.
Qed.

(** C9.  On a lockfile, [ResolvePackage], [AllDependencies], [Subgraph]
    and [Encode] all return, and every object that existed before the
    call (the lockfile map, its entries, their dependency maps) has
    the same contents after it: the only writes go to the map that
    [AllDependencies] or [Subgraph] has just created. *)
Theorem operations_leave_lockfile_unchanged h l name version key paths packages w :
  lockfileOk h l = true ->
  (exists r, ResolvePackage l name version h = Some (r, h))
  /\ (exists r h', AllDependencies l key h = Some (r, h')
        /\ forall a o, h !! a = Some o -> h' !! a = Some o)
  /\ (exists r h', Subgraph l paths packages h = Some (r, h')
        /\ forall a o, h !! a = Some o -> h' !! a = Some o)
  /\ (exists r, Encode l w h = Some (r, h)).
Proof.
  intros Hok. destruct (lockfileOk_inv _ _ Hok) as (m & Hl & Hent).
  split; [|split; [|split]].
  - by apply ResolvePackage_loop_total.
  - destruct (m !! key) as [p|] eqn:Hk.
    + destruct (entryOk_inv _ _ (Hent _ _ Hk)) as (a & e & -> & Ha & Hd & Ho).
      eexists _, _. split.
      * by apply AllDependencies_present with (m := m) (a := a).
      * intros a' o. apply insert_fresh_preserves.
    + eexists _, _. split.
      * by apply AllDependencies_absent with (m := m).
      * intros a' o. apply insert_fresh_preserves.
  - eexists _, _. split; [by apply run_Subgraph|].
    intros a' o. apply insert_fresh_preserves.
  - eexists. by apply run_Encode with (m := m).
Qed.

(** ** Decoding: alias splitting *)

Lemma forEach_splitKey h p val pieces : forall acc,
  forEach pieces (fun v => lockStore p (TrimSpace v) val) (<[p := OLock acc]> h)
  = Some (tt, <[p := OLock (splitKey val acc pieces)]> h).
Proof.
  induction pieces as [|v pieces IH]; intros acc; simpl; [done|].
  rewrite (run_bind _ _ _ _ _
             (run_lockStore _ _ _ (TrimSpace v) val (lookup_insert_eq _ _ _))).
  rewrite insert_insert_eq. apply IH.
Qed.

Lemma forEach_splitAll h p bindings : forall acc,
  forEach bindings (fun kv =>
    forEach (Split (fst kv) ", ") (fun v =>
      lockStore p (TrimSpace v) (snd kv))) (<[p := OLock acc]> h)
  = Some (tt, <[p := OLock (splitAll acc bindings)]> h).
Proof.
  induction bindings as [|[k val] bindings IH]; intros acc; simpl; [done|].
  rewrite (run_bind _ _ _ _ _ (forEach_splitKey h p val (Split k ", ") acc)).
  apply IH.
Qed.

Lemma run_yarnSplitOutEntries h lockfile m :
  h !! lockfile = Some (OLock m) ->
  yarnSplitOutEntries lockfile h
  = Some (fresh (dom h),
          <[fresh (dom h) := OLock (splitAll ∅ (lockOrder m))]> h).
Proof.
  intros Hl. unfold yarnSplitOutEntries.
  rewrite (run_bind _ _ _ _ _ (run_alloc _ _)).
  assert (Hrange : lockRange lockfile (<[fresh (dom h) := OLock ∅]> h)
                   = Some (lockOrder m, <[fresh (dom h) := OLock ∅]> h)).
  { unfold lockRange. by rewrite (insert_fresh_preserves _ _ _ _ Hl). }
  rewrite (run_bind _ _ _ _ _ Hrange).
  by rewrite (run_bind _ _ _ _ _ (forEach_splitAll h _ (lockOrder m) ∅)).
Qed.

(** Where the bindings of the canonical map come from. *)
Lemma splitKey_lookup val pieces : forall acc c q,
  splitKey val acc pieces !! c = Some q ->
  acc !! c = Some q \/ (q = val /\ exists v, v ∈ pieces /\ c = TrimSpace v).
Proof.
  induction pieces as [|v pieces IH]; intros acc c q; simpl; [by left|].
  intros H. destruct (IH _ _ _ H) as [Hacc|(-> & v' & Hv' & ->)].
  - destruct (decide (TrimSpace v = c)) as [<-|Hne].
    + rewrite lookup_insert_eq in Hacc. injection Hacc as <-.
      right. split; [done|]. exists v. split; [apply list_elem_of_here|done].
    + rewrite lookup_insert_ne in Hacc by done. by left.
  - right. split; [done|]. exists v'. split; [by apply list_elem_of_further|done].
Qed.

Lemma splitKey_mono val pieces : forall acc c,
  is_Some (acc !! c) -> is_Some (splitKey val acc pieces !! c).
Proof.
  induction pieces as [|v pieces IH]; intros acc c Hc; simpl; [done|].
  apply IH. destruct (decide (TrimSpace v = c)) as [<-|Hne].
  - rewrite lookup_insert_eq. by eexists.
  - by rewrite lookup_insert_ne.
Qed.

Lemma splitKey_bound val pieces : forall acc v,
  v ∈ pieces -> is_Some (splitKey val acc pieces !! TrimSpace v).
Proof.
  induction pieces as [|v' pieces IH]; intros acc v Hv; simpl.
  - by apply not_elem_of_nil in Hv.
  - apply elem_of_cons in Hv as [->|Hv].
    + apply splitKey_mono. rewrite lookup_insert_eq. by eexists.
    + by apply IH.
Qed.

Lemma splitAll_lookup bindings : forall acc c q,
  splitAll acc bindings !! c = Some q ->
  acc !! c = Some q
  \/ exists k v, (k, q) ∈ bindings /\ v ∈ Split k ", " /\ c = TrimSpace v.
Proof.
  induction bindings as [|[k val] bindings IH]; intros acc c q; simpl; [by left|].
  intros H. destruct (IH _ _ _ H) as [Hacc|(k' & v & Hin & Hv & ->)].
  - destruct (splitKey_lookup _ _ _ _ _ Hacc) as [?|(-> & v & Hv & ->)];
      [by left|].
    right. exists k, v. split; [apply list_elem_of_here|done].
  - right. exists k', v. split; [by apply list_elem_of_further|done].
Qed.

Lemma splitAll_mono bindings : forall acc c,
  is_Some (acc !! c) -> is_Some (splitAll acc bindings !! c).
Proof.
  induction bindings as [|[k val] bindings IH]; intros acc c Hc; simpl; [done|].
  apply IH. by apply splitKey_mono.
Qed.

Lemma splitAll_bound bindings : forall acc k val v,
  (k, val) ∈ bindings -> v ∈ Split k ", " ->
  is_Some (splitAll acc bindings !! TrimSpace v).
Proof.
  induction bindings as [|[k' val'] bindings IH]; intros acc k val v Hin Hv; simpl.
  - by apply not_elem_of_nil in Hin.
  - apply elem_of_cons in Hin as [Heq|Hin].
    + injection Heq as <- <-. apply splitAll_mono. by apply splitKey_bound.
    + by apply IH with (k := k) (val := val).
Qed.

(** ** Decoding: what [yaml.Unmarshal] allocates *)

Lemma keeps_refl h : keeps h h.
Proof. by intros a o Ha _. Qed.

Lemma keeps_trans h1 h2 h3 : keeps h1 h2 -> keeps h2 h3 -> keeps h1 h3.
Proof. intros H12 H23 a o Ha Ho. apply H23; [by apply H12|done]. Qed.

Lemma keeps_alloc h o : keeps h (<[fresh (dom h) := o]> h).
Proof. intros a x Ha _. by apply insert_fresh_preserves. Qed.

Lemma keeps_lockStore h r m m' :
  h !! r = Some (OLock m) -> keeps h (<[r := OLock m']> h).
Proof.
  intros Hr a o Ha Ho. destruct (decide (r = a)) as [->|Hne].
  - rewrite Hr in Ha. injection Ha as <-. by destruct (Ho m).
  - by rewrite lookup_insert_ne.
Qed.

Lemma depsOk_keeps h h' p :
  keeps h h' -> depsOk h p = true ->
  depsOk h' p = true /\ depsVal h' p = depsVal h p.
Proof.
  intros Hk. unfold depsOk, depsVal. destruct p as [a|]; [|done].
  destruct (h !! a) as [[e|x|d]|] eqn:Ha; try discriminate.
  intros _. by rewrite (Hk _ _ Ha).
Qed.

Lemma entryOk_keeps h h' p :
  keeps h h' -> entryOk h p = true ->
  entryOk h' p = true /\ blockOf h' p = blockOf h p.
Proof.
  intros Hk Hok. destruct (entryOk_inv _ _ Hok) as (a & e & -> & Ha & Hd & Ho).
  destruct (depsOk_keeps _ _ _ Hk Hd) as [Hd' Hdv].
  destruct (depsOk_keeps _ _ _ Hk Ho) as [Ho' Hov].
  unfold entryOk, blockOf. rewrite Ha, (Hk _ _ Ha) by done.
  by rewrite Hd', Ho', Hdv, Hov.
Qed.

Lemma run_allocDeps h d :
  exists p h', allocDeps d h = Some (p, h')
    /\ keeps h h' /\ (forall a o, h !! a = Some o -> h' !! a = Some o)
    /\ depsOk h' p = true /\ depsVal h' p = d.
Proof.
  destruct d as [m|]; simpl.
  - eexists _, _. rewrite (run_bind _ _ _ _ _ (run_alloc _ _)).
    split; [reflexivity|]. split; [apply keeps_alloc|].
    split; [intros a o; apply insert_fresh_preserves|].
    unfold depsOk, depsVal. by rewrite lookup_insert_eq.
  - exists None, h. split; [done|]. split; [apply keeps_refl|]. by repeat split.
Qed.

(** A decoded value is nil for a null and otherwise a new entry that
    reads back as the block; nothing that existed is touched. *)
Lemma run_allocBlock h b :
  exists p h', allocBlock b h = Some (p, h')
    /\ keeps h h' /\ (forall a o, h !! a = Some o -> h' !! a = Some o)
    /\ blockOf h' p = b
    /\ (p = None \/ entryOk h' p = true).
Proof.
  destruct b as [b|]; simpl.
  - destruct (run_allocDeps h (bDependencies b))
      as (d & h1 & Hrun1 & Hk1 & Hf1 & Hok1 & Hv1).
    destruct (run_allocDeps h1 (bOptionalDependencies b))
      as (o & h2 & Hrun2 & Hk2 & Hf2 & Hok2 & Hv2).
    rewrite (run_bind _ _ _ _ _ Hrun1), (run_bind _ _ _ _ _ Hrun2).
    rewrite (run_bind _ _ _ _ _ (run_alloc _ _)).
    eexists _, _. split; [reflexivity|].
    set (e := mkEntry (bVersion b) (bResolved b) (bIntegrity b) d o).
    assert (Hk3 : keeps h2 (<[fresh (dom h2) := OEntry e]> h2)) by apply keeps_alloc.
    destruct (depsOk_keeps _ _ _ Hk2 Hok1) as [Hok1' Hv1'].
    destruct (depsOk_keeps _ _ _ Hk3 Hok1') as [Hok1'' Hv1''].
    destruct (depsOk_keeps _ _ _ Hk3 Hok2) as [Hok2'' Hv2''].
    split; [by eauto using keeps_trans|].
    split; [intros a x Ha; by apply insert_fresh_preserves, Hf2, Hf1|].
    unfold blockOf, entryOk. rewrite lookup_insert_eq. simpl.
    rewrite Hok1'', Hok2'', Hv1'', Hv2'', Hv1', Hv1, Hv2.
    split; [by destruct b | by right].
  - exists None, h. split; [done|]. split; [apply keeps_refl|].
    split; [done|]. split; [done | by left].
Qed.

Lemma unmarshal_loop r xs : forall h raw,
  NoDup (fst <$> xs) ->
  h !! r = Some (OLock raw) ->
  exists h' raw',
    forEach xs (fun kb => p <- allocBlock (snd kb) ;; lockStore r (fst kb) p) h
    = Some (tt, h')
    /\ h' !! r = Some (OLock raw')
    /\ keeps h h'
    /\ (forall a o, a <> r -> h !! a = Some o -> h' !! a = Some o)
    /\ (forall k, k ∉ fst <$> xs -> raw' !! k = raw !! k)
    /\ (forall k b, (k, b) ∈ xs ->
          exists p, raw' !! k = Some p /\ blockOf h' p = b
                    /\ (p = None \/ entryOk h' p = true)).
Proof.
  induction xs as [|[k b] xs IH]; intros h raw Hnd Hr.
  - exists h, raw. split; [done|]. split; [done|]. split; [apply keeps_refl|].
    split; [done|]. split; [done|]. intros k b Hin. by apply not_elem_of_nil in Hin.
  - rewrite fmap_cons in Hnd. apply NoDup_cons in Hnd as [Hk Hnd]. simpl in Hk.
    destruct (run_allocBlock h b) as (p & h1 & Hrun & Hk1 & Hf1 & Hb & Hp).
    assert (Hr1 : h1 !! r = Some (OLock raw)) by by apply Hf1.
    set (h2 := <[r := OLock (<[k := p]> raw)]> h1).
    assert (Hk2 : keeps h1 h2) by by apply keeps_lockStore with (m := raw).
    destruct (IH h2 (<[k := p]> raw) Hnd (lookup_insert_eq _ _ _))
      as (h' & raw' & Hloop & Hr' & Hk' & Hf' & Hout & Hin).
    exists h', raw'. split; [|split; [exact Hr'|split; [|split; [|split]]]].
    + cbn [forEach]. rewrite (run_bind _ _ _ _ _
                 (eq_trans (run_bind _ _ _ _ _ Hrun)
                           (run_lockStore _ _ _ k p Hr1))).
      exact Hloop.
    + eauto using keeps_trans.
    + intros a o Har Ha. apply Hf'; [done|]. unfold h2.
      rewrite lookup_insert_ne by done. by apply Hf1.
    + intros k' Hk'out. rewrite fmap_cons in Hk'out.
      apply not_elem_of_cons in Hk'out as [Hne Hnin].
      rewrite (Hout _ Hnin). by rewrite lookup_insert_ne.
    + intros k' b' Hin'. apply elem_of_cons in Hin' as [Heq|Hin'].
      * injection Heq as -> ->. exists p.
        rewrite (Hout _ Hk), lookup_insert_eq. split; [done|].
        destruct Hp as [->|Hok]; [by split; [|left]|].
        destruct (entryOk_keeps _ _ _ Hk2 Hok) as [Hok2 Hb2].
        destruct (entryOk_keeps _ _ _ Hk' Hok2) as [Hok' Hb'].
        split; [congruence | by right].
      * by apply Hin.
Qed.

(** [yaml.Unmarshal] on a text the library reads as [doc]: a new map
    at a new address with the keys of [doc], each bound to nil or to a
    new entry that reads back as its block. *)
Lemma run_yaml_Unmarshal h contents doc :
  yaml_parse contents = inr doc ->
  exists h' raw,
    yaml_Unmarshal contents h = Some (inr (fresh (dom h)), h')
    /\ h' !! fresh (dom h) = Some (OLock raw)
    /\ (forall a o, h !! a = Some o -> h' !! a = Some o)
    /\ (forall k, doc !! k = None -> raw !! k = None)
    /\ (forall k b, doc !! k = Some b ->
          exists p, raw !! k = Some p /\ blockOf h' p = b
                    /\ (p = None \/ entryOk h' p = true)).
Proof.
  intros Hparse. unfold yaml_Unmarshal. rewrite Hparse.
  rewrite (run_bind _ _ _ _ _ (run_alloc _ _)).
  set (r := fresh (dom h)).
  destruct (unmarshal_loop r (map_to_list doc) (<[r := OLock ∅]> h) ∅
              (NoDup_fst_map_to_list doc) (lookup_insert_eq _ _ _))
    as (h' & raw & Hloop & Hr & Hk & Hf & Hout & Hin).
  exists h', raw. rewrite (run_bind _ _ _ _ _ Hloop).
  split; [done|]. split; [exact Hr|]. split; [|split].
  - intros a o Ha. apply Hf.
    + intros ->. unfold r in Ha. by rewrite fresh_not_allocated in Ha.
    + by apply insert_fresh_preserves.
  - intros k Hk'. rewrite Hout; [apply lookup_empty|].
    intros ((k' & b) & -> & Hin')%list_elem_of_fmap.
    apply elem_of_map_to_list in Hin'. simpl in Hk'. congruence.
  - intros k b Hk'. apply Hin. by apply elem_of_map_to_list.
Qed.

Lemma run_Decode_error h contents e :
  yaml_parse contents = inl e ->
  DecodeBerryLockfile contents h
  = Some ((fresh (dom h), Some (Errorf_w "could not unmarshal lockfile: " e)),
          <[fresh (dom h) := OLock ∅]> h).
Proof.
  intros Hparse. unfold DecodeBerryLockfile, yaml_Unmarshal. by rewrite Hparse.
Qed.

Lemma run_Decode h contents doc :
  yaml_parse contents = inr doc ->
  exists h1 raw,
    DecodeBerryLockfile contents h
    = Some ((fresh (dom h1), None),
            <[fresh (dom h1) := OLock (splitAll ∅ (lockOrder raw))]> h1)
    /\ (forall a o, h !! a = Some o -> h1 !! a = Some o)
    /\ (forall k, doc !! k = None -> raw !! k = None)
    /\ (forall k b, doc !! k = Some b ->
          exists p, raw !! k = Some p /\ blockOf h1 p = b
                    /\ (p = None \/ entryOk h1 p = true)).
Proof.
  intros Hparse.
  destruct (run_yaml_Unmarshal h contents doc Hparse)
    as (h1 & raw & Hrun & Hr & Hf & Hout & Hin).
  exists h1, raw. split; [|done].
  unfold DecodeBerryLockfile. rewrite (run_bind _ _ _ _ _ Hrun).
  by rewrite (run_bind _ _ _ _ _ (run_yarnSplitOutEntries _ _ _ Hr)).
Qed.

Lemma HasPrefix_app s t sub :
  HasPrefix s sub = true -> HasPrefix (s ++ t) sub = true.
Proof.
  revert s. induction sub as [|c sub IH]; intros s.
  - intros _. destruct s; [by destruct t | done].
  - destruct s as [|c' s]; [done|]. simpl.
    intros [-> Hs]%andb_prop. by rewrite (IH _ Hs).
Qed.

Lemma contains_app_l s t sub :
  contains s sub = true -> contains (s ++ t) sub = true.
Proof.
  induction s as [|c s IH].
  - destruct sub as [|c sub]; intros H; [by destruct t | by simpl in H].
  - change (String c s ++ t) with (String c (s ++ t)).
    cbn [contains]. intros [Hp|Hc]%orb_prop.
    + pose proof (HasPrefix_app (String c s) t sub Hp) as Hp'.
      change (String c s ++ t) with (String c (s ++ t)) in Hp'.
      by rewrite Hp'.
    + rewrite (IH Hc). apply orb_true_r.
Qed.

Lemma aliasesDisjoint_inv keys k1 k2 c :
  aliasesDisjoint keys = true ->
  k1 ∈ keys -> k2 ∈ keys -> c ∈ pieces k1 -> c ∈ pieces k2 -> k1 = k2.
Proof.
  unfold aliasesDisjoint. rewrite forallb_forall. intros Hall H1 H2 Hc1 Hc2.
  specialize (Hall k1 (proj1 (list_elem_of_In _ _) H1)).
  rewrite forallb_forall in Hall.
  specialize (Hall k2 (proj1 (list_elem_of_In _ _) H2)).
  apply orb_prop in Hall as [Heq|Hall]; [by apply String.eqb_eq|].
  rewrite forallb_forall in Hall.
  specialize (Hall c (proj1 (list_elem_of_In _ _) Hc1)).
  apply negb_true_iff, bool_decide_eq_false in Hall. by destruct Hall.
Qed.

(** C7 (as amended).  When the bytes are not valid YAML, decoding
    returns an empty lockfile and an error whose message is
    ["could not unmarshal lockfile: "] followed by the message of the
    parser; the decoder adds no word about corruption or merge
    conflicts. *)
Theorem Decode_error_message h contents e :
  yaml_parse contents = inl e ->
  exists l err h',
    DecodeBerryLockfile contents h = Some ((l, Some err), h')
    /\ h' !! l = Some (OLock ∅)
    /\ Error err = "could not unmarshal lockfile: " ++ Error e.
Proof.
  intros Hparse. eexists _, _, _.
  split; [by apply run_Decode_error|].
  split; [apply lookup_insert_eq | reflexivity].
Qed.

(** The hint at merge conflicts and corruption is in the message of
    [Encode], for a failure of the YAML encoder. *)
Lemma Encode_error_message h l m w e :
  lockfileOk h l = true ->
  h !! l = Some (OLock m) ->
  yaml_emit (docOf h m) = inl e ->
  exists err, Encode l w h = Some ((w, Some err), h)
              /\ hintsCorruption (Error err) = true.
Proof.
  intros Hok Hl He. rewrite (run_Encode _ _ _ w Hok Hl), He. simpl.
  eexists. split; [reflexivity|].
  unfold hintsCorruption. simpl Error.
  rewrite (contains_app_l _ _ "corrupt"); [done|]. vm_compute. reflexivity.
Qed.

(** C1 (as amended).  For bytes that parse, when no canonical key is
    claimed by two different raw keys, decoding returns a lockfile in
    which every trimmed piece of a raw key is bound to the one entry
    pointer of that raw key (so all pieces of a raw key share one entry,
    which reads back as the block of the raw key), and every canonical
    key is such a piece. *)
Theorem Decode_splits_aliases h contents doc :
  yaml_parse contents = inr doc ->
  aliasesDisjoint (fst <$> map_to_list doc) = true ->
  exists l h' pretty (entryOf : string -> option positive),
    DecodeBerryLockfile contents h = Some ((l, None), h')
    /\ h' !! l = Some (OLock pretty)
    /\ (forall k b, doc !! k = Some b ->
          blockOf h' (entryOf k) = b
          /\ forall v, v ∈ Split k ", " ->
               pretty !! TrimSpace v = Some (entryOf k))
    /\ (forall c q, pretty !! c = Some q ->
          exists k v, is_Some (doc !! k) /\ v ∈ Split k ", "
                      /\ c = TrimSpace v /\ q = entryOf k).
Proof.
  intros Hparse Hdisj.
  destruct (run_Decode h contents doc Hparse)
    as (h1 & raw & Hrun & Hf & Hout & Hin).
  set (l := fresh (dom h1)) in *.
  set (pretty := splitAll ∅ (lockOrder raw)) in *.
  exists l, (<[l := OLock pretty]> h1), pretty,
         (fun k => default None (raw !! k)).
  split; [exact Hrun|]. split; [apply lookup_insert_eq|].
  assert (Hkeep : keeps h1 (<[l := OLock pretty]> h1)) by apply keeps_alloc.
  assert (Hkey : forall k, is_Some (raw !! k) -> k ∈ fst <$> map_to_list doc).
  { intros k [p Hp]. destruct (doc !! k) as [b|] eqn:Hk.
    - apply list_elem_of_fmap. exists (k, b). split; [done|].
      by apply elem_of_map_to_list.
    - rewrite (Hout _ Hk) in Hp. discriminate. }
  assert (Horigin : forall c q, pretty !! c = Some q ->
            exists k v, raw !! k = Some q /\ v ∈ Split k ", " /\ c = TrimSpace v).
  { intros c q Hc. destruct (splitAll_lookup _ _ _ _ Hc)
      as [Hempty|(k & v & Hkq & Hv & ->)]; [by rewrite lookup_empty in Hempty|].
    exists k, v. split; [|done].
    rewrite lockOrder_perm in Hkq. by apply elem_of_map_to_list. }
  split.
  - intros k b Hk. destruct (Hin k b Hk) as (p & Hp & Hb & Hpok).
    rewrite Hp. simpl. split.
    + destruct Hpok as [->|Hpok]; [done|].
      destruct (entryOk_keeps _ _ _ Hkeep Hpok) as [_ Hb']. congruence.
    + intros v Hv.
      destruct (splitAll_bound (lockOrder raw) ∅ k p v) as [q Hq]; [|done|].
      { rewrite lockOrder_perm. by apply elem_of_map_to_list. }
      fold pretty in Hq. rewrite Hq. f_equal.
      destruct (Horigin _ _ Hq) as (k' & v' & Hk' & Hv' & Heq).
      assert (k = k') as <-; [|congruence].
      apply (aliasesDisjoint_inv _ k k' (TrimSpace v) Hdisj).
      * apply Hkey. by eexists.
      * apply Hkey. by eexists.
      * apply list_elem_of_fmap. by exists v.
      * apply list_elem_of_fmap. by exists v'.
  - intros c q Hc. destruct (Horigin _ _ Hc) as (k & v & Hk & Hv & ->).
    exists k, v. rewrite Hk. simpl. split; [|done].
    destruct (doc !! k) eqn:Hdk; [by eexists|].
    rewrite (Hout _ Hdk) in Hk. discriminate.
Qed.


(** ** The layout of what Encode writes *)

Lemma string_app_assoc (a b c : string) : (a ++ b) ++ c = a ++ (b ++ c).
Proof.
  induction a as [|x a IH]; [done|].
  change (String x ((a ++ b) ++ c) = String x (a ++ (b ++ c))). by f_equal.
Qed.

Lemma string_app_nil_r (s : string) : s ++ EmptyString = s.
Proof.
  induction s as [|x s IH]; [done|].
  change (String x (s ++ EmptyString) = String x s). by f_equal.
Qed.

Lemma rev_app_spec (s1 s2 : string) :
  String.rev_app s1 s2 = String.rev s1 ++ s2.
Proof.
  unfold String.rev. revert s2.
  induction s1 as [|c s1 IH]; intros s2; simpl; [done|].
  rewrite (IH (String c s2)), (IH (String c EmptyString)).
  by rewrite string_app_assoc.
Qed.

Lemma rev_cons c (cur : string) :
  String.rev (String c cur) = String.rev cur ++ String c EmptyString.
Proof. unfold String.rev at 1. simpl. apply rev_app_spec. Qed.

Lemma HasPrefix_nil s : HasPrefix s EmptyString = true.
Proof. by destruct s. Qed.

Lemma eqb_squote c : Ascii.eqb c "'"%char = byte_is c 39.
Proof. by destruct c as [[] [] [] [] [] [] [] []]. Qed.

Lemma split_from_cons sep skip cur s :
  exists piece rest, split_from sep skip cur s = piece :: rest.
Proof.
  revert skip cur. induction s as [|c s IH]; intros skip cur; cbn [split_from].
  - by eexists _, _.
  - destruct skip as [|k]; [|apply IH].
    destruct (HasPrefix (String c s) sep); [by eexists _, _ | apply IH].
Qed.

Lemma Join_cons e piece rest sep :
  Join (e :: piece :: rest) sep = e ++ sep ++ Join (piece :: rest) sep.
Proof. reflexivity. Qed.

Lemma Join_split_quote s : forall cur,
  Join (split_from squote 0 cur s) dquote = String.rev cur ++ normalize s.
Proof.
  induction s as [|c s IH]; intros cur.
  - simpl. by rewrite string_app_nil_r.
  - cbn [split_from normalize]. unfold squote at 1. cbn [HasPrefix].
    rewrite HasPrefix_nil, andb_true_r, eqb_squote. unfold quoteChar.
    destruct (byte_is c 39) eqn:Hc.
    + change (len squote - 1) with 0.
      destruct (split_from_cons squote 0 EmptyString s) as (piece & rest & Hs).
      rewrite Hs, Join_cons, <- Hs, IH. reflexivity.
    + rewrite IH, rev_cons, string_app_assoc. reflexivity.
Qed.

Lemma ReplaceAll_normalize line : ReplaceAll line squote dquote = normalize line.
Proof. unfold ReplaceAll, squote at 1. apply (Join_split_quote line EmptyString). Qed.

Lemma stringToWrite_outLines line rest :
  unlines (outLines (line :: rest)) = stringToWrite line ++ unlines (outLines rest).
Proof.
  unfold stringToWrite. rewrite ReplaceAll_normalize. cbn [outLines].
  destruct (HasPrefix line " "); cbn [negb unlines].
  - by rewrite string_app_assoc.
  - change (EmptyString ++ nl ++ ?x) with (nl ++ x).
    by rewrite !string_app_assoc.
Qed.










Lemma hasByte_app n (a b : string) :
  hasByte n (a ++ b) = hasByte n a || hasByte n b.
Proof.
  induction a as [|x a IH]; [done|].
  change (hasByte n (String x (a ++ b)) = hasByte n (String x a) || hasByte n b).
  cbn [hasByte]. by rewrite IH, orb_assoc.
Qed.







(** ** Decoding what Encode wrote *)

(** On a document whose keys are all canonical the decoder yields a
    lockfile with that very document. *)
Lemma Decode_canonical h contents doc :
  yaml_parse contents = inr doc ->
  (forall k, is_Some (doc !! k) -> pieces k = [k]) ->
  exists l h' pretty,
    DecodeBerryLockfile contents h = Some ((l, None), h')
    /\ h' !! l = Some (OLock pretty)
    /\ docOf h' pretty = doc.
Proof.
  intros Hparse Hcanon.
  destruct (run_Decode h contents doc Hparse)
    as (h1 & raw & Hrun & Hf & Hout & Hin).
  set (l := fresh (dom h1)) in *.
  set (pretty := splitAll ∅ (lockOrder raw)) in *.
  exists l, (<[l := OLock pretty]> h1), pretty.
  split; [exact Hrun|]. split; [apply lookup_insert_eq|].
  assert (Hkeep : keeps h1 (<[l := OLock pretty]> h1)) by apply keeps_alloc.
  assert (Horigin : forall c q, pretty !! c = Some q -> raw !! c = Some q).
  { intros c q Hc. destruct (splitAll_lookup _ _ _ _ Hc)
      as [Hempty|(k & v & Hkq & Hv & ->)]; [by rewrite lookup_empty in Hempty|].
    rewrite lockOrder_perm in Hkq. apply elem_of_map_to_list in Hkq.
    assert (Hk : is_Some (doc !! k)).
    { destruct (doc !! k) eqn:Hdk; [by eexists|].
      rewrite (Hout _ Hdk) in Hkq. discriminate. }
    assert (Hpiece : TrimSpace v ∈ pieces k)
      by (apply list_elem_of_fmap; by exists v).
    rewrite (Hcanon _ Hk) in Hpiece. apply list_elem_of_singleton in Hpiece.
    by rewrite Hpiece. }
  apply map_eq. intros c. unfold docOf. rewrite lookup_fmap.
  destruct (doc !! c) as [b|] eqn:Hdc.
  - destruct (Hin c b Hdc) as (p & Hp & Hb & Hpok).
    assert (Hsome : is_Some (pretty !! c)).
    { pose proof (Hcanon c (ex_intro _ b Hdc)) as Hpc. unfold pieces in Hpc.
      destruct (Split c ", ") as [|v [|v' vs]] eqn:Hsplit; try discriminate.
      injection Hpc as Hv.
      rewrite <- Hv. fold pretty. apply (splitAll_bound (lockOrder raw) ∅ c p v).
      - rewrite lockOrder_perm. by apply elem_of_map_to_list.
      - rewrite Hsplit. apply list_elem_of_here. }
    destruct Hsome as [q Hq]. rewrite Hq. simpl. f_equal.
    assert (q = p) as -> by (apply Horigin in Hq; congruence).
    destruct Hpok as [->|Hpok]; [done|].
    destruct (entryOk_keeps _ _ _ Hkeep Hpok) as [_ Hb']. congruence.
  - destruct (pretty !! c) as [q|] eqn:Hq; [|done].
    apply Horigin in Hq. rewrite (Hout _ Hdc) in Hq. discriminate.
Qed.



(** * Further properties of the operations *)

(** ** Subgraph composed with the other operations *)

Lemma lockfileOk_intro h l m :
  h !! l = Some (OLock m) ->
  (forall k p, m !! k = Some p -> entryOk h p = true) ->
  lockfileOk h l = true.
Proof.
  intros Hl Hent. unfold lockfileOk. rewrite Hl. apply forallb_forall.
  intros [k p] Hin%list_elem_of_In%elem_of_map_to_list. by apply (Hent k).
Qed.

Lemma lookup_kept m (packages : list string) k :
  foldl (keep m) ∅ packages !! k = if decide (k ∈ packages) then m !! k else None.
Proof.
  rewrite lookup_foldl_keep, lookup_empty.
  destruct (decide (k ∈ packages)); [|done]. by destruct (m !! k).
Qed.

(** The heap after [Subgraph]: the source is as it was, the new map is
    a lockfile when the source is. *)
Lemma Subgraph_heap h l m packages :
  lockfileOk h l = true ->
  h !! l = Some (OLock m) ->
  let s := fresh (dom h) in
  let h1 := <[s := OLock (foldl (keep m) ∅ packages)]> h in
  h1 !! l = Some (OLock m) /\ lockfileOk h1 l = true /\ lockfileOk h1 s = true.
Proof.
  intros Hok Hl s h1.
  destruct (lockfileOk_inv _ _ Hok) as (m' & Hl' & Hent).
  assert (m' = m) as -> by congruence.
  assert (Hkeep : keeps h h1) by apply keeps_alloc.
  assert (Hl1 : h1 !! l = Some (OLock m)) by by apply insert_fresh_preserves.
  split; [exact Hl1|]. split.
  - apply (lockfileOk_intro _ _ m Hl1). intros k p Hk.
    by destruct (entryOk_keeps _ _ _ Hkeep (Hent _ _ Hk)).
  - apply (lockfileOk_intro _ _ _ (lookup_insert_eq _ _ _)). intros k p Hk.
    rewrite lookup_kept in Hk. destruct (decide (k ∈ packages)); [|discriminate].
    by destruct (entryOk_keeps _ _ _ Hkeep (Hent _ _ Hk)).
Qed.

(** X1.  The lockfile [Subgraph] returns is a lockfile again, and for a
    listed key [AllDependencies] on it gives the result it gives on the
    source: the same flag and the same merged map. *)
Theorem Subgraph_then_AllDependencies h l paths packages key :
  lockfileOk h l = true ->
  key ∈ packages ->
  exists s h1,
    Subgraph l paths packages h = Some ((s, None), h1)
    /\ lockfileOk h1 s = true
    /\ is_Some (AllDependencies l key h1)
    /\ AllDependencies s key h1 = AllDependencies l key h1.
Proof.
  intros Hok Hkey. destruct (lockfileOk_inv _ _ Hok) as (m & Hl & _).
  destruct (Subgraph_heap h l m packages Hok Hl) as (Hl1 & Hok1 & Hoks).
  eexists _, _. split; [by apply run_Subgraph|]. split; [exact Hoks|].
  set (s := fresh (dom h)) in *.
  set (h1 := <[s := OLock (foldl (keep m) ∅ packages)]> h) in *.
  assert (Hs1 : h1 !! s = Some (OLock (foldl (keep m) ∅ packages)))
    by apply lookup_insert_eq.
  assert (Hsub : foldl (keep m) ∅ packages !! key = m !! key).
  { rewrite lookup_kept. by rewrite decide_True. }
  destruct (lockfileOk_inv _ _ Hok1) as (m1 & Hl1' & Hent1).
  assert (m1 = m) as -> by congruence.
  destruct (m !! key) as [p|] eqn:Hk.
  - destruct (entryOk_inv _ _ (Hent1 _ _ Hk)) as (a & e & -> & Ha & Hd & Ho).
    rewrite (AllDependencies_present h1 l m key a e Hl1 Hk Ha Hd Ho).
    rewrite (AllDependencies_present h1 s _ key a e Hs1 Hsub Ha Hd Ho).
    split; [by eexists | done].
  - rewrite (AllDependencies_absent h1 l m key Hl1 Hk).
    rewrite (AllDependencies_absent h1 s _ key Hs1 Hsub).
    split; [by eexists | done].
Qed.

Lemma ResolvePackage_loop_kept h1 l s m sub (packages keys : list string) :
  h1 !! l = Some (OLock m) ->
  h1 !! s = Some (OLock sub) ->
  (forall k, sub !! k = if decide (k ∈ packages) then m !! k else None) ->
  ResolvePackage_loop s keys h1
  = ResolvePackage_loop l (filter (fun k => k ∈ packages) keys) h1.
Proof.
  intros Hl Hs Hsub. induction keys as [|key keys IH]; [done|].
  cbn [ResolvePackage_loop].
  rewrite (run_bind _ _ _ _ _ (run_lockIndex _ _ _ key Hs)), Hsub.
  destruct (decide (key ∈ packages)) as [Hin|Hnin].
  - rewrite filter_cons_True by done. cbn [ResolvePackage_loop].
    rewrite (run_bind _ _ _ _ _ (run_lockIndex _ _ _ key Hl)).
    by destruct (m !! key).
  - by rewrite filter_cons_False.
Qed.

(** X2.  Resolving on the lockfile [Subgraph] returns is resolving on
    the source with the candidates that were not listed struck out: a
    package is found through its first candidate that is both listed
    and a key of the source. *)
Theorem Subgraph_then_ResolvePackage h l m paths packages name version :
  h !! l = Some (OLock m) ->
  exists s h1,
    Subgraph l paths packages h = Some ((s, None), h1)
    /\ ResolvePackage s name version h1
       = ResolvePackage_loop l
           (filter (fun k => k ∈ packages) (yarnPossibleKeys name version)) h1.
Proof.
  intros Hl. eexists _, _. split; [by apply run_Subgraph|].
  unfold ResolvePackage.
  apply ResolvePackage_loop_kept with (m := m) (sub := foldl (keep m) ∅ packages).
  - by apply insert_fresh_preserves.
  - apply lookup_insert_eq.
  - intros k. apply lookup_kept.
Qed.

(** X3.  Taking a subgraph of a subgraph keeps the keys listed both
    times: the second result binds a key exactly when it is in both
    lists and a key of the source, to the pointer the source has. *)
Theorem Subgraph_of_Subgraph h l m paths1 packages1 paths2 packages2 :
  h !! l = Some (OLock m) ->
  exists s1 h1 s2 h2 sub2,
    Subgraph l paths1 packages1 h = Some ((s1, None), h1)
    /\ Subgraph s1 paths2 packages2 h1 = Some ((s2, None), h2)
    /\ h2 !! s2 = Some (OLock sub2)
    /\ h2 !! l = Some (OLock m)
    /\ forall k, sub2 !! k
                 = if decide (k ∈ packages1 /\ k ∈ packages2) then m !! k else None.
Proof.
  intros Hl.
  set (sub1 := foldl (keep m) ∅ packages1).
  set (h1 := <[fresh (dom h) := OLock sub1]> h).
  assert (Hs1 : h1 !! fresh (dom h) = Some (OLock sub1)) by apply lookup_insert_eq.
  exists (fresh (dom h)), h1, (fresh (dom h1)),
         (<[fresh (dom h1) := OLock (foldl (keep sub1) ∅ packages2)]> h1),
         (foldl (keep sub1) ∅ packages2).
  split; [by apply run_Subgraph|]. split; [by apply run_Subgraph|].
  split; [apply lookup_insert_eq|]. split.
  - by apply insert_fresh_preserves, insert_fresh_preserves.
  - intros k. rewrite lookup_kept. unfold sub1. rewrite lookup_kept.
    destruct (decide (k ∈ packages2)) as [H2|H2];
      destruct (decide (k ∈ packages1)) as [H1|H1].
    + by rewrite decide_True.
    + rewrite decide_False; [done|]. by intros [? ?].
    + rewrite decide_False; [done|]. by intros [? ?].
    + rewrite decide_False; [done|]. by intros [? ?].
Qed.

(** X4.  [Subgraph] looks at the set of listed keys only: two lists with
    the same members, in any order and with any repetitions, give the
    same lockfile; and a list that has every key of the source gives a
    map equal to the source's. *)
Theorem Subgraph_by_key_set h l m paths packages1 packages2 :
  h !! l = Some (OLock m) ->
  (forall k, k ∈ packages1 <-> k ∈ packages2) ->
  Subgraph l paths packages1 h = Subgraph l paths packages2 h
  /\ ((forall k, is_Some (m !! k) -> k ∈ packages1) ->
      Subgraph l paths packages1 h
      = Some ((fresh (dom h), None), <[fresh (dom h) := OLock m]> h)).
Proof.
  intros Hl Hsame.
  rewrite (run_Subgraph h l m paths packages1 Hl).
  rewrite (run_Subgraph h l m paths packages2 Hl). split.
  - do 4 f_equal. apply map_eq. intros k. rewrite !lookup_kept.
    destruct (decide (k ∈ packages1)) as [H1|H1];
      destruct (decide (k ∈ packages2)) as [H2|H2]; try done.
    + by apply Hsame in H1.
    + by apply Hsame in H2.
  - intros Hall. do 4 f_equal. apply map_eq. intros k. rewrite lookup_kept.
    destruct (decide (k ∈ packages1)) as [H1|H1]; [done|].
    destruct (m !! k) eqn:Hk; [|done]. destruct H1. apply Hall. by eexists.
Qed.

(** ** Decoding *)

(** What decoding bytes that parse does, in one place. *)
Lemma Decode_spec h contents doc :
  yaml_parse contents = inr doc ->
  exists h1 raw,
    let l := fresh (dom h1) in
    let pretty := splitAll ∅ (lockOrder raw) in
    let h' := <[l := OLock pretty]> h1 in
    DecodeBerryLockfile contents h = Some ((l, None), h')
    /\ (forall a o, h !! a = Some o -> h' !! a = Some o)
    /\ (forall k, doc !! k = None -> raw !! k = None)
    /\ (forall k b, doc !! k = Some b ->
          exists p, raw !! k = Some p /\ blockOf h' p = b
                    /\ (p = None \/ entryOk h' p = true))
    /\ (forall c q, pretty !! c = Some q ->
          exists k v, raw !! k = Some q /\ v ∈ Split k ", " /\ c = TrimSpace v)
    /\ (forall k p v, raw !! k = Some p -> v ∈ Split k ", " ->
          is_Some (pretty !! TrimSpace v)).
Proof.
  intros Hparse.
  destruct (run_Decode h contents doc Hparse)
    as (h1 & raw & Hrun & Hf & Hout & Hin).
  exists h1, raw. intros l pretty h'.
  assert (Hkeep : keeps h1 h') by apply keeps_alloc.
  split; [exact Hrun|]. split; [|split; [exact Hout|split; [|split]]].
  - intros a o Ha. by apply insert_fresh_preserves, Hf.
  - intros k b Hk. destruct (Hin k b Hk) as (p & Hp & Hb & Hpok).
    exists p. split; [exact Hp|].
    destruct Hpok as [->|Hpok]; [by split; [|left]|].
    destruct (entryOk_keeps _ _ _ Hkeep Hpok) as [Hok' Hb'].
    split; [congruence | by right].
  - intros c q Hc. destruct (splitAll_lookup _ _ _ _ Hc)
      as [Hempty|(k & v & Hkq & Hv & ->)]; [by rewrite lookup_empty in Hempty|].
    exists k, v. split; [|done].
    rewrite lockOrder_perm in Hkq. by apply elem_of_map_to_list.
  - intros k p v Hk Hv. apply (splitAll_bound (lockOrder raw) ∅ k p v); [|done].
    rewrite lockOrder_perm. by apply elem_of_map_to_list.
Qed.

(** X5.  Decoding always returns (it does not panic), with a nil error
    exactly when the bytes parse, and whatever it returns, every object
    that existed before is unchanged: it builds its lockfile from new
    objects only. *)
Theorem Decode_touches_nothing h contents :
  exists l err h',
    DecodeBerryLockfile contents h = Some ((l, err), h')
    /\ (err = None <-> exists doc, yaml_parse contents = inr doc)
    /\ h !! l = None
    /\ forall a o, h !! a = Some o -> h' !! a = Some o.
Proof.
  destruct (yaml_parse contents) as [e|doc] eqn:Hparse.
  - eexists _, _, _. split; [by apply run_Decode_error|]. split; [|split].
    + split; [discriminate|]. intros [doc Hdoc]. discriminate.
    + apply fresh_not_allocated.
    + intros a o. apply insert_fresh_preserves.
  - destruct (run_Decode h contents doc Hparse)
      as (h1 & raw & Hrun & Hf & _).
    eexists _, _, _. split; [exact Hrun|]. split; [|split].
    + split; [by eexists | done].
    + destruct (h !! fresh (dom h1)) as [o|] eqn:Ho; [|done].
      apply Hf in Ho. by rewrite fresh_not_allocated in Ho.
    + intros a o Ha. by apply insert_fresh_preserves, Hf.
Qed.

Lemma doc_key_of_raw (doc : gmap string (option block))
    (raw : gmap string (option positive)) k q :
  (forall k, doc !! k = None -> raw !! k = None) ->
  raw !! k = Some q -> is_Some (doc !! k).
Proof.
  intros Hout Hk. destruct (doc !! k) eqn:Hdk; [by eexists|].
  rewrite (Hout _ Hdk) in Hk. discriminate.
Qed.


Lemma noNulls_inv (doc : gmap string (option block)) k b :
  noNulls doc = true -> doc !! k = Some b -> is_Some b.
Proof.
  unfold noNulls. rewrite forallb_forall. intros Hall Hk.
  eapply bool_decide_eq_true_1, (Hall (k, b)), list_elem_of_In.
  by apply elem_of_map_to_list.
Qed.

Lemma Decode_gives_lockfile_aux h contents doc :
  yaml_parse contents = inr doc ->
  noNulls doc = true ->
  exists l h',
    DecodeBerryLockfile contents h = Some ((l, None), h')
    /\ lockfileOk h' l = true.
Proof.
  intros Hparse Hnn.
  destruct (Decode_spec h contents doc Hparse)
    as (h1 & raw & Hrun & _ & Hout & Hin & Horigin & _).
  eexists _, _. split; [exact Hrun|].
  apply (lockfileOk_intro _ _ _ (lookup_insert_eq _ _ _)).
  intros c q Hc. destruct (Horigin _ _ Hc) as (k & v & Hk & _).
  destruct (doc_key_of_raw doc raw k q Hout Hk) as [b Hb].
  destruct (Hin k b Hb) as (p & Hp & Hblock & Hpok).
  assert (p = q) as -> by congruence.
  destruct Hpok as [->|Hpok]; [|done].
  destruct (noNulls_inv doc k b Hnn Hb) as [b' ->]. discriminate.
Qed.

(** X7.  When no block of the parsed document is a null, what decoding
    returns is a lockfile: every key is bound to an entry (no nil
    pointer) whose dependency fields are nil or maps, and so
    [ResolvePackage] and [AllDependencies] return on it for every
    argument, without a nil dereference. *)
Theorem Decode_gives_lockfile h contents doc :
  yaml_parse contents = inr doc ->
  noNulls doc = true ->
  exists l h',
    DecodeBerryLockfile contents h = Some ((l, None), h')
    /\ lockfileOk h' l = true
    /\ (forall name version, is_Some (ResolvePackage l name version h'))
    /\ (forall key, is_Some (AllDependencies l key h')).
Proof.
  intros Hparse Hnn.
  destruct (Decode_gives_lockfile_aux h contents doc Hparse Hnn)
    as (l & h' & Hrun & Hok).
  exists l, h'. split; [exact Hrun|]. split; [exact Hok|]. split.
  - intros name version.
    destruct (ResolvePackage_loop_total h' l (yarnPossibleKeys name version) Hok)
      as [r Hr].
    unfold ResolvePackage. rewrite Hr. by eexists.
  - intros key. destruct (lockfileOk_inv _ _ Hok) as (m & Hl & Hent).
    destruct (m !! key) as [p|] eqn:Hk.
    + destruct (entryOk_inv _ _ (Hent _ _ Hk)) as (a & e & -> & Ha & Hd & Ho).
      rewrite (AllDependencies_present h' l m key a e Hl Hk Ha Hd Ho). by eexists.
    + rewrite (AllDependencies_absent h' l m key Hl Hk). by eexists.
Qed.

(** X8.  Decoding and encoding again: for bytes that parse to a
    document with canonical keys and no null, [Encode] on the decoded
    lockfile hands the YAML encoder that very document, so what it
    writes is what it writes for the parsed document. *)
Theorem Decode_then_Encode h contents doc w :
  yaml_parse contents = inr doc ->
  canonicalKeys (fst <$> map_to_list doc) = true ->
  noNulls doc = true ->
  exists l h',
    DecodeBerryLockfile contents h = Some ((l, None), h')
    /\ snapshot l h' = Some (doc, h')
    /\ Encode l w h' = Some (encodeResult w (yaml_emit doc), h').
Proof.
  intros Hparse Hcanon Hnn.
  destruct (Decode_gives_lockfile_aux h contents doc Hparse Hnn)
    as (l & h' & Hrun & Hok).
  destruct (Decode_canonical h contents doc Hparse)
    as (l2 & h2 & pretty & Hrun2 & Hl2 & Hdoc).
  { intros k [b Hk]. unfold canonicalKeys in Hcanon.
    rewrite forallb_forall in Hcanon.
    eapply bool_decide_eq_true_1, Hcanon, list_elem_of_In, list_elem_of_fmap.
    exists (k, b). split; [done | by apply elem_of_map_to_list]. }
  rewrite Hrun in Hrun2. injection Hrun2 as <- <-.
  exists l, h'. split; [exact Hrun|]. split.
  - by rewrite (run_snapshot _ _ _ Hok Hl2), Hdoc.
  - by rewrite (run_Encode _ _ _ w Hok Hl2), Hdoc.
Qed.

Lemma notPiece_inv (keys : list string) c k :
  notPiece keys c = true -> k ∈ keys -> c ∉ pieces k.
Proof.
  unfold notPiece. rewrite forallb_forall. intros Hall Hk.
  specialize (Hall k (proj1 (list_elem_of_In _ _) Hk)).
  by apply negb_true_iff, bool_decide_eq_false in Hall.
Qed.

Lemma doc_key_listed (doc : gmap string (option block)) k :
  is_Some (doc !! k) -> k ∈ fst <$> map_to_list doc.
Proof.
  intros [b Hk]. apply list_elem_of_fmap. exists (k, b).
  split; [done | by apply elem_of_map_to_list].
Qed.

(** X9.  Decoding then resolving: when no piece is claimed by two raw
    keys, a package is found under any alias of its block.  If the
    first candidate that is a piece of some raw key is a piece of the
    raw key [k], [ResolvePackage] on the decoded lockfile returns that
    candidate with the version of the block of [k]. *)
Theorem Decode_then_ResolvePackage h contents doc k b v name version pre post :
  yaml_parse contents = inr doc ->
  aliasesDisjoint (fst <$> map_to_list doc) = true ->
  doc !! k = Some (Some b) ->
  v ∈ Split k ", " ->
  yarnPossibleKeys name version = (pre ++ TrimSpace v :: post)%list ->
  forallb (notPiece (fst <$> map_to_list doc)) pre = true ->
  exists l h',
    DecodeBerryLockfile contents h = Some ((l, None), h')
    /\ ResolvePackage l name version h'
       = Some ((TrimSpace v, bVersion b, true), h').
Proof.
  intros Hparse Hdisj Hk Hv Hkeys Hpre.
  destruct (Decode_spec h contents doc Hparse)
    as (h1 & raw & Hrun & _ & Hout & Hin & Horigin & Hbound).
  eexists _, _. split; [exact Hrun|].
  set (l := fresh (dom h1)) in *.
  set (pretty := splitAll ∅ (lockOrder raw)) in *.
  set (h' := <[l := OLock pretty]> h1) in *.
  destruct (Hin k _ Hk) as (p & Hp & Hblock & Hpok).
  destruct Hpok as [->|Hpok]; [discriminate|].
  destruct (entryOk_inv _ _ Hpok) as (a & e & -> & Ha & _).
  assert (Hver : Version e = bVersion b).
  { unfold blockOf in Hblock. rewrite Ha in Hblock. by injection Hblock as <-. }
  assert (Hhit : pretty !! TrimSpace v = Some (Some a)).
  { destruct (Hbound k (Some a) v Hp Hv) as [q Hq]. rewrite Hq. f_equal.
    destruct (Horigin _ _ Hq) as (k' & v' & Hk' & Hv' & Heq).
    assert (k = k') as <-; [|congruence].
    apply (aliasesDisjoint_inv _ k k' (TrimSpace v) Hdisj).
    - apply doc_key_listed. by eexists.
    - apply doc_key_listed. by apply (doc_key_of_raw doc raw k' q).
    - apply list_elem_of_fmap. by exists v.
    - apply list_elem_of_fmap. by exists v'. }
  unfold ResolvePackage. rewrite Hkeys, <- Hver.
  apply ResolvePackage_loop_hit with (m := pretty) (a := a);
    [apply lookup_insert_eq | | exact Hhit | exact Ha].
  apply Forall_forall. intros c Hc.
  rewrite forallb_forall in Hpre.
  specialize (Hpre c (proj1 (list_elem_of_In _ _) Hc)).
  destruct (pretty !! c) as [q|] eqn:Hq; [|done].
  destruct (Horigin _ _ Hq) as (k' & v' & Hk' & Hv' & ->).
  destruct (notPiece_inv _ _ k' Hpre).
  - apply doc_key_listed. by apply (doc_key_of_raw doc raw k' q).
  - apply list_elem_of_fmap. by exists v'.
Qed.

(** ** Nil entries *)

(** X10.  A key bound to a nil entry pointer (what a key with a null
    block is decoded to) makes the lookups panic: [AllDependencies] for
    that key dereferences nil, and so does [ResolvePackage] when the key
    is the first candidate present. *)
Theorem nil_entry_panics h l m key name version pre post :
  h !! l = Some (OLock m) ->
  m !! key = Some None ->
  AllDependencies l key h = None
  /\ (yarnPossibleKeys name version = (pre ++ key :: post)%list ->
      Forall (fun k' => m !! k' = None) pre ->
      ResolvePackage l name version h = None).
Proof.
  intros Hl Hk. split.
  - unfold AllDependencies. rewrite (run_bind _ _ _ _ _ (run_alloc _ _)).
    assert (Hl1 : <[fresh (dom h) := ODeps ∅]> h !! l = Some (OLock m))
      by by apply insert_fresh_preserves.
    rewrite (run_bind _ _ _ _ _ (run_lockIndex _ _ _ key Hl1)), Hk.
    reflexivity.
  - intros Hkeys Hpre. unfold ResolvePackage. rewrite Hkeys. clear Hkeys.
    induction Hpre as [|k' ks Hk' _ IH]; cbn [app ResolvePackage_loop].
    + rewrite (run_bind _ _ _ _ _ (run_lockIndex _ _ _ key Hl)), Hk.
      reflexivity.
    + rewrite (run_bind _ _ _ _ _ (run_lockIndex _ _ _ k' Hl)), Hk'.
      exact IH.
Qed.

(** ** The map AllDependencies returns is the caller's own *)

Lemma docOf_keeps h h' (m : gmap string (option positive)) :
  keeps h h' ->
  (forall k p, m !! k = Some p -> entryOk h p = true) ->
  docOf h' m = docOf h m.
Proof.
  intros Hkeep Hent. apply map_eq. intros k. unfold docOf.
  rewrite !lookup_fmap. destruct (m !! k) as [p|] eqn:Hk; [|done]. simpl.
  by destruct (entryOk_keeps _ _ _ Hkeep (Hent _ _ Hk)) as [_ ->].
Qed.

(** X11.  The map [AllDependencies] returns is a copy: a write to it
    (here [deps[name] = version] by the caller) succeeds and changes
    neither the lockfile map nor any entry or dependency map, so the
    document of the lockfile stays what it was. *)
Theorem AllDependencies_returns_a_copy h l m key name version :
  lockfileOk h l = true ->
  h !! l = Some (OLock m) ->
  exists d found h1 h2,
    AllDependencies l key h = Some ((d, found), h1)
    /\ depsStore d name version h1 = Some (tt, h2)
    /\ (forall a o, h !! a = Some o -> h2 !! a = Some o)
    /\ docOf h2 m = docOf h m.
Proof.
  intros Hok Hl. destruct (lockfileOk_inv _ _ Hok) as (m' & Hl' & Hent).
  assert (m' = m) as -> by congruence.
  assert (Hrun : exists found deps,
             AllDependencies l key h
             = Some ((fresh (dom h), found), <[fresh (dom h) := ODeps deps]> h)).
  { destruct (m !! key) as [p|] eqn:Hk.
    - destruct (entryOk_inv _ _ (Hent _ _ Hk)) as (a & e & -> & Ha & Hd & Ho).
      eexists _, _. by apply AllDependencies_present with (m := m) (a := a).
    - eexists _, _. by apply AllDependencies_absent with (m := m). }
  destruct Hrun as (found & deps & Hrun).
  eexists _, found, _, _. split; [exact Hrun|].
  split; [apply run_depsStore, lookup_insert_eq|].
  rewrite insert_insert_eq. split.
  - intros a o. apply insert_fresh_preserves.
  - apply docOf_keeps; [apply keeps_alloc | exact Hent].
Qed.

(** ** Encode: errors, quotes, pruning, long lines *)

Lemma writeLines_error lines : forall w w' err,
  writeLines w lines = (w', Some err) ->
  exists e w0 s, WriteString w0 s = (w', Some e)
                 /\ err = Wrap e "failed to write to buffer".
Proof.
  induction lines as [|line lines IH]; intros w w' err Hrun; [discriminate|].
  cbn [writeLines] in Hrun.
  destruct (WriteString w (stringToWrite line)) as [w1 [e|]] eqn:Hw.
  - injection Hrun as <- <-. by exists e, w, (stringToWrite line).
  - by apply (IH w1).
Qed.

(** X12.  The errors of [Encode] are of two kinds.  If the YAML encoder
    fails, nothing is written (the sink is the one passed in) and the
    error wraps the encoder's with the message about merge conflicts and
    corruption.  Otherwise some write failed, and the error wraps the
    error of that write with ["failed to write to buffer"]; the sink
    returned is the one that write left. *)
Theorem Encode_error_cases h l m w w' err :
  lockfileOk h l = true ->
  h !! l = Some (OLock m) ->
  Encode l w h = Some ((w', Some err), h) ->
  (exists e, yaml_emit (docOf h m) = inl e /\ w' = w
             /\ err = Wrap e materializeMessage)
  \/ (exists tmp e w0 s,
        yaml_emit (docOf h m) = inr tmp
        /\ WriteString w0 s = (w', Some e)
        /\ err = Wrap e "failed to write to buffer").
Proof.
  intros Hok Hl Hrun. rewrite (run_Encode _ _ _ w Hok Hl) in Hrun.
  injection Hrun as Hres. unfold encodeResult in Hres.
  destruct (yaml_emit (docOf h m)) as [e|tmp].
  - left. exists e. by injection Hres as <- <-.
  - right. unfold writeOutput in Hres.
    destruct (WriteString w header) as [w1 [e|]] eqn:Hw.
    + injection Hres as <- <-. by exists tmp, e, w, header.
    + destruct (writeLines_error _ _ _ _ Hres) as (e & w0 & s & Hw0 & ->).
      by exists tmp, e, w0, s.
Qed.




Lemma docOf_kept h (m : gmap string (option positive)) (packages : list string) :
  docOf h (foldl (keep m) ∅ packages)
  = filter (fun kb => fst kb ∈ packages) (docOf h m).
Proof.
  apply map_eq. intros k. unfold docOf.
  rewrite lookup_fmap, lookup_kept.
  destruct (decide (k ∈ packages)) as [Hin|Hnin].
  - destruct (m !! k) as [p|] eqn:Hk; simpl.
    + symmetry. apply map_lookup_filter_Some. split; [|done].
      by rewrite lookup_fmap, Hk.
    + symmetry. apply map_lookup_filter_None. left.
      by rewrite lookup_fmap, Hk.
  - symmetry. apply map_lookup_filter_None. right. by intros b _.
Qed.

(** X14.  Pruning then encoding: [Encode] on the lockfile [Subgraph]
    returns hands the YAML encoder the blocks of the listed keys and no
    other, each with the field values it has in the source. *)
Theorem Subgraph_then_Encode h l m paths packages w :
  lockfileOk h l = true ->
  h !! l = Some (OLock m) ->
  exists s h1,
    Subgraph l paths packages h = Some ((s, None), h1)
    /\ snapshot s h1
       = Some (filter (fun kb => fst kb ∈ packages) (docOf h m), h1)
    /\ Encode s w h1
       = Some (encodeResult w
                 (yaml_emit (filter (fun kb => fst kb ∈ packages) (docOf h m))),
               h1).
Proof.
  intros Hok Hl.
  destruct (Subgraph_heap h l m packages Hok Hl) as (_ & _ & Hoks).
  destruct (lockfileOk_inv _ _ Hok) as (m' & Hl' & Hent).
  assert (m' = m) as -> by congruence.
  eexists _, _. split; [by apply run_Subgraph|].
  set (s := fresh (dom h)) in *.
  set (sub := foldl (keep m) ∅ packages) in *.
  assert (Hdoc : docOf (<[s := OLock sub]> h) sub
                 = filter (fun kb => fst kb ∈ packages) (docOf h m)).
  { rewrite <- docOf_kept. apply docOf_keeps; [apply keeps_alloc|].
    intros k p Hk. unfold sub in Hk. rewrite lookup_kept in Hk.
    destruct (decide (k ∈ packages)); [|discriminate]. by apply (Hent k). }
  split.
  - by rewrite (run_snapshot _ _ _ Hoks (lookup_insert_eq _ _ _)), Hdoc.
  - by rewrite (run_Encode _ _ _ w Hoks (lookup_insert_eq _ _ _)), Hdoc.
Qed.

Lemma takeFitting_stop max pre long post :
  forallb (Bufio.fits max) pre = true ->
  Bufio.fits max long = false ->
  Bufio.takeFitting max (pre ++ long :: post) = pre.
Proof.
  intros Hpre Hlong. induction pre as [|line pre IH]; simpl.
  - by rewrite Hlong.
  - simpl in Hpre. apply andb_prop in Hpre as [-> Hpre]. by rewrite (IH Hpre).
Qed.

Lemma writeLines_reliable lines : forall w,
  reliable ->
  exists w', writeLines w lines = (w', None)
             /\ written w' = written w ++ unlines (outLines lines).
Proof.
  induction lines as [|line lines IH]; intros w Hsink.
  - exists w. split; [done|]. simpl. by rewrite string_app_nil_r.
  - destruct (Hsink w (stringToWrite line)) as (w1 & Hw & Hwritten).
    destruct (IH w1 Hsink) as (w' & Hrun & Hw').
    exists w'. cbn [writeLines]. rewrite Hw. split; [exact Hrun|].
    by rewrite Hw', Hwritten, stringToWrite_outLines, string_app_assoc.
Qed.

(** X15.  A line of the intermediate buffer that does not fit the
    scanner's buffer of 10 MiB ends the output without an error: with a
    sink that takes every write, [Encode] returns a nil error having
    written the header and the lines before the long one only; the long
    line and everything after it are dropped. *)
Theorem Encode_stops_at_long_line h l m w tmp pre long post :
  lockfileOk h l = true ->
  h !! l = Some (OLock m) ->
  yaml_emit (docOf h m) = inr tmp ->
  Bufio.rawLines tmp = (pre ++ long :: post)%list ->
  forallb (Bufio.fits maxTokenSize) pre = true ->
  Bufio.fits maxTokenSize long = false ->
  reliable ->
  exists w',
    Encode l w h = Some ((w', None), h)
    /\ written w'
       = written w ++ header ++ unlines (outLines (Bufio.dropCR <$> pre)).
Proof.
  intros Hok Hl Hemit Hlines Hpre Hlong Hsink.
  rewrite (run_Encode _ _ _ w Hok Hl), Hemit.
  unfold encodeResult, writeOutput, Bufio.Lines.
  rewrite Hlines, (takeFitting_stop _ _ _ _ Hpre Hlong).
  destruct (Hsink w header) as (w1 & Hw & Hwritten). rewrite Hw.
  destruct (writeLines_reliable (Bufio.dropCR <$> pre) w1 Hsink)
    as (w' & Hrun & Hw').
  exists w'. rewrite Hrun. split; [done|].
  by rewrite Hw', Hwritten, string_app_assoc.
Qed.

(** ** What a result of ResolvePackage tells *)

Lemma ResolvePackage_loop_sound h l m keys : forall k v found h',
  h !! l = Some (OLock m) ->
  ResolvePackage_loop l keys h = Some ((k, v, found), h') ->
  h' = h
  /\ (found = true ->
      exists pre post a e,
        keys = (pre ++ k :: post)%list
        /\ Forall (fun k' => m !! k' = None) pre
        /\ m !! k = Some (Some a) /\ h !! a = Some (OEntry e) /\ v = Version e)
  /\ (found = false ->
      k = EmptyString /\ v = EmptyString /\ Forall (fun k' => m !! k' = None) keys).
Proof.
  induction keys as [|key keys IH]; intros k v found h' Hl Hrun.
  - injection Hrun as <- <- <- <-. split; [done|]. split; [discriminate|].
    intros _. by repeat split.
  - cbn [ResolvePackage_loop] in Hrun.
    rewrite (run_bind _ _ _ _ _ (run_lockIndex _ _ _ key Hl)) in Hrun.
    destruct (m !! key) as [p|] eqn:Hk.
    + destruct p as [a|]; [|discriminate].
      unfold bind, derefEntry in Hrun.
      destruct (h !! a) as [[e|x|x]|] eqn:Ha; try discriminate.
      injection Hrun as <- <- <- <-. split; [done|]. split; [|discriminate].
      intros _. exists [], keys, a, e. by repeat split.
    + destruct (IH _ _ _ _ Hl Hrun) as (-> & Htrue & Hfalse).
      split; [done|]. split.
      * intros Hf. destruct (Htrue Hf) as (pre & post & a & e & -> & Hpre & Hrest).
        exists (key :: pre), post, a, e. split; [done|].
        split; [by constructor | done].
      * intros Hf. destruct (Hfalse Hf) as (-> & -> & Hall).
        split; [done|]. split; [done | by constructor].
Qed.

(** X16.  What a result of [ResolvePackage] tells the caller: [true]
    comes with a candidate that is a key of the lockfile, with no
    earlier candidate present, and with the version of the entry of
    that key; [false] comes with empty strings and means that no
    candidate at all is a key.  The heap is as it was. *)
Theorem ResolvePackage_result h l m name version k v found h' :
  h !! l = Some (OLock m) ->
  ResolvePackage l name version h = Some ((k, v, found), h') ->
  h' = h
  /\ (found = true ->
      exists pre post a e,
        yarnPossibleKeys name version = (pre ++ k :: post)%list
        /\ Forall (fun k' => m !! k' = None) pre
        /\ m !! k = Some (Some a) /\ h !! a = Some (OEntry e) /\ v = Version e)
  /\ (found = false ->
      k = EmptyString /\ v = EmptyString
      /\ Forall (fun k' => m !! k' = None) (yarnPossibleKeys name version)).
Proof.
  intros Hl Hrun. unfold ResolvePackage in Hrun.
  destruct (ResolvePackage_loop_sound h l m _ _ _ _ _ Hl Hrun)
    as (Hh & Htrue & Hfalse).
  split; [exact Hh|]. split; [exact Htrue | exact Hfalse].
Qed.

(** ** The keys of a decoded lockfile are canonical *)

Lemma eqb_comma c : Ascii.eqb c ","%char = byte_is c 44.
Proof. by destruct c as [[] [] [] [] [] [] [] []]. Qed.

Lemma eqb_space c : Ascii.eqb c " "%char = byte_is c 32.
Proof. by destruct c as [[] [] [] [] [] [] [] []]. Qed.

Lemma HasPrefix_sep c s :
  HasPrefix (String c s) ", " = byte_is c 44 && HasPrefix s " ".
Proof. cbn [HasPrefix]. by rewrite eqb_comma. Qed.

Lemma HasPrefix_space c s : HasPrefix (String c s) " " = byte_is c 32.
Proof. cbn [HasPrefix]. by rewrite HasPrefix_nil, andb_true_r, eqb_space. Qed.

Lemma contains_cons c s sub :
  contains (String c s) sub = HasPrefix (String c s) sub || contains s sub.
Proof. reflexivity. Qed.

Lemma lastIs_snoc n (p : string) c :
  lastIs n (p ++ String c EmptyString) = byte_is c n.
Proof.
  induction p as [|x p IH]; [done|].
  change (lastIs n (String x (p ++ String c EmptyString)) = byte_is c n).
  cbn [lastIs]. destruct p as [|y p]; [done|].
  change (String y p ++ String c EmptyString)
    with (String y (p ++ String c EmptyString)) in *.
  exact IH.
Qed.

Lemma contains_snoc (p : string) c :
  contains (p ++ String c EmptyString) ", "
  = contains p ", " || (byte_is c 32 && lastIs 44 p).
Proof.
  induction p as [|x p IH].
  - change (EmptyString ++ String c EmptyString) with (String c EmptyString).
    rewrite contains_cons, HasPrefix_sep. cbn. by rewrite !andb_false_r.
  - change (String x p ++ String c EmptyString)
      with (String x (p ++ String c EmptyString)).
    rewrite !contains_cons, !HasPrefix_sep, IH.
    destruct p as [|y p].
    + change (EmptyString ++ String c EmptyString) with (String c EmptyString).
      rewrite HasPrefix_space. cbn.
      destruct (byte_is x 44), (byte_is c 32); reflexivity.
    + change (String y p ++ String c EmptyString)
        with (String y (p ++ String c EmptyString)).
      rewrite !HasPrefix_space. cbn [lastIs].
      by rewrite orb_assoc.
Qed.

Lemma contains_app_r (p t sub : string) :
  contains t sub = true -> contains (p ++ t) sub = true.
Proof.
  intros Ht. induction p as [|x p IH]; [done|].
  change (String x p ++ t) with (String x (p ++ t)).
  rewrite contains_cons, IH. apply orb_true_r.
Qed.

(** No piece [Split] returns has the separator inside. *)
Lemma split_from_noSep s : forall skip cur,
  contains (String.rev cur) ", " = false ->
  (skip = 0 -> lastIs 44 (String.rev cur) = true -> HasPrefix s " " = false) ->
  (skip <> 0 -> cur = EmptyString) ->
  Forall (fun piece => contains piece ", " = false) (split_from ", " skip cur s).
Proof.
  induction s as [|c s IH]; intros skip cur Hcur Hlast Hskip.
  - cbn [split_from]. by constructor.
  - cbn [split_from]. destruct skip as [|k].
    + destruct (HasPrefix (String c s) ", ") eqn:Hp.
      * constructor; [exact Hcur|]. apply IH; [done | discriminate | done].
      * apply IH.
        -- rewrite rev_cons, contains_snoc, Hcur. cbn [orb].
           destruct (lastIs 44 (String.rev cur)) eqn:Hl; [|apply andb_false_r].
           specialize (Hlast eq_refl eq_refl). rewrite HasPrefix_space in Hlast.
           by rewrite Hlast.
        -- intros _. rewrite rev_cons, lastIs_snoc. intros Hc.
           rewrite HasPrefix_sep, Hc in Hp. exact Hp.
        -- done.
    + rewrite (Hskip (Nat.neq_succ_0 k)). apply IH; [done | | done].
      intros _. discriminate.
Qed.

Lemma Split_noSep s :
  contains s ", " = false -> Split s ", " = [s].
Proof.
  assert (Hgen : forall s cur, contains s ", " = false ->
            split_from ", " 0 cur s = [String.rev cur ++ s]).
  { clear s. induction s as [|c s IH]; intros cur Hs.
    - cbn [split_from]. by rewrite string_app_nil_r.
    - rewrite contains_cons in Hs. apply orb_false_elim in Hs as [Hp Hs].
      cbn [split_from]. rewrite Hp, (IH _ Hs), rev_cons, string_app_assoc.
      reflexivity. }
  intros Hs. unfold Split. cbn. exact (Hgen s EmptyString Hs).
Qed.

Lemma rev_app_distr (a b : string) :
  String.rev (a ++ b) = String.rev b ++ String.rev a.
Proof.
  induction a as [|c a IH].
  - change (EmptyString ++ b) with b. change (String.rev EmptyString) with EmptyString.
    by rewrite string_app_nil_r.
  - change (String c a ++ b) with (String c (a ++ b)).
    by rewrite !rev_cons, IH, string_app_assoc.
Qed.

Lemma rev_involutive (a : string) : String.rev (String.rev a) = a.
Proof.
  induction a as [|c a IH]; [done|].
  rewrite rev_cons, rev_app_distr, IH. reflexivity.
Qed.

Lemma string_size_ind (P : string -> Prop) :
  (forall s, (forall t, String.length t < String.length s -> P t) -> P s) ->
  forall s, P s.
Proof.
  intros Hstep s. remember (String.length s) as n eqn:Hn. revert s Hn.
  induction n as [n IH] using lt_wf_ind. intros s ->.
  apply Hstep. intros t Ht. by apply (IH _ Ht).
Qed.

(** [trimLeft] returns a suffix that does not start with white space. *)
Lemma trimLeft_spec s :
  (exists p, s = p ++ trimLeft s) /\ startsWithSpace (trimLeft s) = false.
Proof.
  induction s as [s IH] using string_size_ind.
  destruct s as [|b1 r1]; [by split; [exists EmptyString|]|].
  cbn [trimLeft]. destruct (asciiSpace b1) eqn:H1.
  { destruct (IH r1) as [[p Hp] Hs]; [simpl; lia|].
    split; [|exact Hs]. exists (String b1 p).
    change (String b1 p ++ trimLeft r1) with (String b1 (p ++ trimLeft r1)).
    by rewrite <- Hp. }
  destruct r1 as [|b2 r2].
  { split; [by exists EmptyString|]. cbn [startsWithSpace]. by rewrite H1. }
  destruct (space2 b1 b2) eqn:H2.
  { destruct (IH r2) as [[p Hp] Hs]; [simpl; lia|].
    split; [|exact Hs]. exists (String b1 (String b2 p)).
    change (String b1 (String b2 p) ++ trimLeft r2)
      with (String b1 (String b2 (p ++ trimLeft r2))).
    by rewrite <- Hp. }
  destruct r2 as [|b3 r3].
  { split; [by exists EmptyString|]. cbn [startsWithSpace]. by rewrite H1, H2. }
  destruct (space3 b1 b2 b3) eqn:H3.
  { destruct (IH r3) as [[p Hp] Hs]; [simpl; lia|].
    split; [|exact Hs]. exists (String b1 (String b2 (String b3 p))).
    change (String b1 (String b2 (String b3 p)) ++ trimLeft r3)
      with (String b1 (String b2 (String b3 (p ++ trimLeft r3)))).
    by rewrite <- Hp. }
  split; [by exists EmptyString|]. cbn [startsWithSpace]. by rewrite H1, H2, H3.
Qed.

Lemma trimLeft_rev_spec s :
  (exists p, s = p ++ trimLeft_rev s) /\ endsWithSpace_rev (trimLeft_rev s) = false.
Proof.
  induction s as [s IH] using string_size_ind.
  destruct s as [|b1 r1]; [by split; [exists EmptyString|]|].
  cbn [trimLeft_rev]. destruct (asciiSpace b1) eqn:H1.
  { destruct (IH r1) as [[p Hp] Hs]; [simpl; lia|].
    split; [|exact Hs]. exists (String b1 p).
    change (String b1 p ++ trimLeft_rev r1) with (String b1 (p ++ trimLeft_rev r1)).
    by rewrite <- Hp. }
  destruct r1 as [|b2 r2].
  { split; [by exists EmptyString|]. cbn [endsWithSpace_rev]. by rewrite H1. }
  destruct (space2 b2 b1) eqn:H2.
  { destruct (IH r2) as [[p Hp] Hs]; [simpl; lia|].
    split; [|exact Hs]. exists (String b1 (String b2 p)).
    change (String b1 (String b2 p) ++ trimLeft_rev r2)
      with (String b1 (String b2 (p ++ trimLeft_rev r2))).
    by rewrite <- Hp. }
  destruct r2 as [|b3 r3].
  { split; [by exists EmptyString|]. cbn [endsWithSpace_rev]. by rewrite H1, H2. }
  destruct (space3 b3 b2 b1) eqn:H3.
  { destruct (IH r3) as [[p Hp] Hs]; [simpl; lia|].
    split; [|exact Hs]. exists (String b1 (String b2 (String b3 p))).
    change (String b1 (String b2 (String b3 p)) ++ trimLeft_rev r3)
      with (String b1 (String b2 (String b3 (p ++ trimLeft_rev r3)))).
    by rewrite <- Hp. }
  split; [by exists EmptyString|]. cbn [endsWithSpace_rev]. by rewrite H1, H2, H3.
Qed.

Lemma trimLeft_fixed s : startsWithSpace s = false -> trimLeft s = s.
Proof.
  destruct s as [|b1 [|b2 [|b3 r3]]]; cbn [startsWithSpace trimLeft]; try done.
  - by intros ->%orb_false_elim%proj1.
  - intros [-> [-> _]%orb_false_elim]%orb_false_elim. done.
  - intros [-> [-> ->]%orb_false_elim]%orb_false_elim. done.
Qed.

Lemma trimLeft_rev_fixed s : endsWithSpace_rev s = false -> trimLeft_rev s = s.
Proof.
  destruct s as [|b1 [|b2 [|b3 r3]]]; cbn [endsWithSpace_rev trimLeft_rev]; try done.
  - by intros ->%orb_false_elim%proj1.
  - intros [-> [-> _]%orb_false_elim]%orb_false_elim. done.
  - intros [-> [-> ->]%orb_false_elim]%orb_false_elim. done.
Qed.

Lemma startsWithSpace_prefix (t q : string) :
  startsWithSpace (t ++ q) = false -> startsWithSpace t = false.
Proof.
  destruct t as [|b1 [|b2 [|b3 r3]]]; try done.
  - change (String b1 EmptyString ++ q) with (String b1 q).
    cbn [startsWithSpace]. intros [-> _]%orb_false_elim. done.
  - change (String b1 (String b2 EmptyString) ++ q) with (String b1 (String b2 q)).
    cbn [startsWithSpace]. intros [-> [-> _]%orb_false_elim]%orb_false_elim. done.
Qed.

Lemma contains_false_app_r (p t sub : string) :
  contains (p ++ t) sub = false -> contains t sub = false.
Proof.
  intros H. destruct (contains t sub) eqn:Ht; [|done].
  by rewrite (contains_app_r p t sub Ht) in H.
Qed.

Lemma contains_false_app_l (t q sub : string) :
  contains (t ++ q) sub = false -> contains t sub = false.
Proof.
  intros H. destruct (contains t sub) eqn:Ht; [|done].
  by rewrite (contains_app_l t q sub Ht) in H.
Qed.

(** Trimming a string without the separator gives a string without
    the separator that trimming leaves alone. *)
Lemma TrimSpace_canonical v :
  contains v ", " = false ->
  contains (TrimSpace v) ", " = false /\ TrimSpace (TrimSpace v) = TrimSpace v.
Proof.
  intros Hv. unfold TrimSpace at 1 3 4. unfold trimRight.
  destruct (trimLeft_spec v) as [[p Hp] Hstart].
  set (L := trimLeft v) in *.
  destruct (trimLeft_rev_spec (String.rev L)) as [[q Hq] Hend].
  set (W := trimLeft_rev (String.rev L)) in *.
  assert (HL : L = String.rev W ++ String.rev q).
  { by rewrite <- rev_app_distr, <- Hq, rev_involutive. }
  assert (HsepL : contains L ", " = false).
  { apply (contains_false_app_r p). by rewrite <- Hp. }
  assert (HsepT : contains (String.rev W) ", " = false).
  { apply (contains_false_app_l _ (String.rev q)). by rewrite <- HL. }
  split; [exact HsepT|].
  assert (HstartT : startsWithSpace (String.rev W) = false).
  { apply (startsWithSpace_prefix _ (String.rev q)). by rewrite <- HL. }
  unfold TrimSpace, trimRight.
  rewrite (trimLeft_fixed _ HstartT), rev_involutive.
  by rewrite (trimLeft_rev_fixed _ Hend).
Qed.

(** A trimmed piece of a raw key stands for itself alone. *)
Lemma piece_canonical k c :
  c ∈ pieces k -> pieces c = [c].
Proof.
  intros (v & -> & Hv)%list_elem_of_fmap.
  assert (Hsep : contains v ", " = false).
  { pose proof (split_from_noSep k 0 EmptyString eq_refl) as Hall.
    rewrite Forall_forall in Hall. apply Hall; [discriminate | done | exact Hv]. }
  destruct (TrimSpace_canonical v Hsep) as [HsepT Hfix].
  unfold pieces. rewrite (Split_noSep _ HsepT). cbn. by rewrite Hfix.
Qed.

Lemma splitAll_key_is_piece xs c q :
  splitAll ∅ xs !! c = Some q ->
  exists k, (k, q) ∈ xs /\ c ∈ pieces k.
Proof.
  intros Hc. destruct (splitAll_lookup _ _ _ _ Hc)
    as [Hempty|(k & v & Hkq & Hv & ->)]; [by rewrite lookup_empty in Hempty|].
  exists k. split; [done|]. apply list_elem_of_fmap. by exists v.
Qed.

(** Splitting a map whose keys are canonical gives the map back. *)
Lemma splitAll_canonical (m : gmap string (option positive)) xs :
  (forall k, is_Some (m !! k) -> pieces k = [k]) ->
  xs ≡ₚ map_to_list m ->
  splitAll ∅ xs = m.
Proof.
  intros Hcanon Hperm.
  assert (Horigin : forall c q, splitAll ∅ xs !! c = Some q -> m !! c = Some q).
  { intros c q Hc. destruct (splitAll_key_is_piece _ _ _ Hc) as (k & Hkq & Hpiece).
    rewrite Hperm in Hkq. apply elem_of_map_to_list in Hkq.
    rewrite (Hcanon k (ex_intro _ q Hkq)) in Hpiece.
    apply list_elem_of_singleton in Hpiece. by rewrite Hpiece. }
  apply map_eq. intros c. destruct (m !! c) as [p|] eqn:Hk.
  - pose proof (Hcanon c (ex_intro _ p Hk)) as Hpc. unfold pieces in Hpc.
    destruct (Split c ", ") as [|v [|v' vs]] eqn:Hsplit; try discriminate.
    injection Hpc as Hv.
    destruct (splitAll_bound xs ∅ c p v) as [q Hq].
    + rewrite Hperm. by apply elem_of_map_to_list.
    + rewrite Hsplit. apply list_elem_of_here.
    + rewrite Hv in Hq. rewrite Hq. apply Horigin in Hq. congruence.
  - destruct (splitAll ∅ xs !! c) as [q|] eqn:Hq; [|done].
    apply Horigin in Hq. congruence.
Qed.

(** X17.  Every key of a decoded lockfile is canonical, whatever the
    raw keys were: it does not contain the alias delimiter, trimming
    leaves it as it is, and so it stands for itself alone. *)
Theorem Decode_keys_canonical h contents doc :
  yaml_parse contents = inr doc ->
  exists l h' pretty,
    DecodeBerryLockfile contents h = Some ((l, None), h')
    /\ h' !! l = Some (OLock pretty)
    /\ canonicalKeys (fst <$> map_to_list pretty) = true
    /\ forall c, is_Some (pretty !! c) ->
         contains c ", " = false /\ TrimSpace c = c.
Proof.
  intros Hparse.
  destruct (Decode_spec h contents doc Hparse)
    as (h1 & raw & Hrun & _ & _ & _ & Horigin & _).
  eexists _, _, _. split; [exact Hrun|]. split; [apply lookup_insert_eq|].
  split.
  - unfold canonicalKeys. apply forallb_forall.
    intros c ((c' & q) & -> & Hin)%list_elem_of_In%list_elem_of_fmap.
    apply elem_of_map_to_list in Hin. simpl. apply bool_decide_eq_true_2.
    destruct (Horigin _ _ Hin) as (k & v & _ & Hv & ->).
    apply (piece_canonical k). apply list_elem_of_fmap. by exists v.
  - intros c [q Hc]. destruct (Horigin _ _ Hc) as (k & v & _ & Hv & ->).
    apply TrimSpace_canonical.
    pose proof (split_from_noSep k 0 EmptyString eq_refl) as Hall.
    rewrite Forall_forall in Hall. apply Hall; [discriminate | done | exact Hv].
Qed.

(** X18.  [yarnSplitOutEntries] is idempotent: applied to the map it
    has returned, it returns a map with the same bindings (at another
    address), in every visiting order. *)
Theorem yarnSplitOutEntries_idempotent h lockfile m :
  h !! lockfile = Some (OLock m) ->
  exists p1 h1 pretty p2 h2,
    yarnSplitOutEntries lockfile h = Some (p1, h1)
    /\ h1 !! p1 = Some (OLock pretty)
    /\ yarnSplitOutEntries p1 h1 = Some (p2, h2)
    /\ h2 !! p2 = Some (OLock pretty)
    /\ h2 !! p1 = Some (OLock pretty)
    /\ p2 <> p1.
Proof.
  intros Hl.
  set (pretty := splitAll ∅ (lockOrder m)).
  set (p1 := fresh (dom h)).
  set (h1 := <[p1 := OLock pretty]> h).
  assert (Hp1 : h1 !! p1 = Some (OLock pretty)) by apply lookup_insert_eq.
  assert (Hagain : splitAll ∅ (lockOrder pretty) = pretty).
  { apply splitAll_canonical; [|apply lockOrder_perm].
    intros c [q Hc]. destruct (splitAll_key_is_piece _ _ _ Hc) as (k & _ & Hpiece).
    by apply (piece_canonical k). }
  exists p1, h1, pretty, (fresh (dom h1)),
         (<[fresh (dom h1) := OLock pretty]> h1).
  split; [by apply run_yarnSplitOutEntries|]. split; [exact Hp1|].
  split; [by rewrite (run_yarnSplitOutEntries _ _ _ Hp1), Hagain|].
  split; [apply lookup_insert_eq|].
  split; [by apply insert_fresh_preserves|].
  intros Heq. pose proof (fresh_not_allocated h1) as Hfresh.
  rewrite Heq, Hp1 in Hfresh. discriminate.
Qed.

(** ** The visiting order of the raw map *)

(** When no piece is claimed twice, the bindings written by the loops
    of [yarnSplitOutEntries] are fixed by the raw map. *)
Lemma splitAll_spec (m : gmap string (option positive)) xs c q :
  xs ≡ₚ map_to_list m ->
  aliasesDisjoint (fst <$> map_to_list m) = true ->
  splitAll ∅ xs !! c = Some q <-> exists k, m !! k = Some q /\ c ∈ pieces k.
Proof.
  intros Hperm Hdisj.
  assert (Hto : forall c q, splitAll ∅ xs !! c = Some q ->
            exists k, m !! k = Some q /\ c ∈ pieces k).
  { intros c' q' Hc. destruct (splitAll_key_is_piece _ _ _ Hc) as (k & Hkq & Hpiece).
    exists k. split; [|done]. rewrite Hperm in Hkq. by apply elem_of_map_to_list. }
  split; [apply Hto|].
  intros (k & Hk & (v & -> & Hv)%list_elem_of_fmap).
  destruct (splitAll_bound xs ∅ k q v) as [q' Hq']; [|done|].
  { rewrite Hperm. by apply elem_of_map_to_list. }
  rewrite Hq'. f_equal. destruct (Hto _ _ Hq') as (k' & Hk' & Hpiece').
  assert (k = k') as <-; [|congruence].
  apply (aliasesDisjoint_inv _ k k' (TrimSpace v) Hdisj).
  - apply list_elem_of_fmap. exists (k, q). split; [done|].
    by apply elem_of_map_to_list.
  - apply list_elem_of_fmap. exists (k', q'). split; [done|].
    by apply elem_of_map_to_list.
  - apply list_elem_of_fmap. by exists v.
  - exact Hpiece'.
Qed.

Lemma splitAll_any_order (m : gmap string (option positive)) xs ys :
  xs ≡ₚ map_to_list m ->
  ys ≡ₚ map_to_list m ->
  aliasesDisjoint (fst <$> map_to_list m) = true ->
  splitAll ∅ xs = splitAll ∅ ys.
Proof.
  intros Hxs Hys Hdisj. apply map_eq. intros c.
  destruct (splitAll ∅ xs !! c) as [q|] eqn:Hx.
  - symmetry. apply (splitAll_spec m ys c q Hys Hdisj).
    by apply (splitAll_spec m xs c q Hxs Hdisj).
  - destruct (splitAll ∅ ys !! c) as [q|] eqn:Hy; [|done].
    apply (splitAll_spec m ys c q Hys Hdisj) in Hy.
    apply (splitAll_spec m xs c q Hxs Hdisj) in Hy. congruence.
Qed.

(** ** The lockfile returned with a decode error *)

(** X20.  With a decode error comes a lockfile that is empty but
    usable: [ResolvePackage] and [AllDependencies] on it return not
    found for every argument, without a panic. *)
Theorem Decode_error_lockfile h contents e :
  yaml_parse contents = inl e ->
  exists l err h',
    DecodeBerryLockfile contents h = Some ((l, Some err), h')
    /\ lockfileOk h' l = true
    /\ (forall name version,
          ResolvePackage l name version h'
          = Some ((EmptyString, EmptyString, false), h'))
    /\ (forall key, exists d h'',
          AllDependencies l key h' = Some ((d, false), h'')
          /\ h'' !! d = Some (ODeps ∅)).
Proof.
  intros Hparse. eexists _, _, _. split; [by apply run_Decode_error|].
  set (l := fresh (dom h)). set (h' := <[l := OLock ∅]> h).
  assert (Hl : h' !! l = Some (OLock ∅)) by apply lookup_insert_eq.
  split; [|split].
  - apply (lockfileOk_intro _ _ _ Hl). intros k p Hk.
    by rewrite lookup_empty in Hk.
  - intros name version. unfold ResolvePackage.
    apply ResolvePackage_loop_absent with (m := ∅); [exact Hl|].
    apply Forall_forall. intros k _. apply lookup_empty.
  - intros key. eexists _, _.
    split; [apply (AllDependencies_absent h' l ∅ key Hl), lookup_empty|].
    apply lookup_insert_eq.
Qed.

End BerryLockfile.

(** ** The theorems at the sample data *)

Ltac in_list := apply list_elem_of_In; vm_compute; tauto.

(** ** The models on small inputs *)

Example Split_two : Split "a@^1.0.0, a@^1.1.0" ", " = ["a@^1.0.0"; "a@^1.1.0"].
Proof. reflexivity. Qed.

Example Split_none : Split "a@^1.0.0" ", " = ["a@^1.0.0"].
Proof. reflexivity. Qed.

Example Split_empty : Split EmptyString ", " = [EmptyString].
Proof. reflexivity. Qed.

Example Split_edges :
  Split ", a, , " ", " = [EmptyString; "a"; EmptyString; EmptyString].
Proof. reflexivity. Qed.

Example TrimSpace_both : TrimSpace "  a@1 b  " = "a@1 b".
Proof. reflexivity. Qed.

Example TrimSpace_nbsp :
  TrimSpace (String (ascii_of_nat 194) (String (ascii_of_nat 160) "a")) = "a".
Proof. reflexivity. Qed.

Example ReplaceAll_quotes :
  ReplaceAll "'a': 'b'" squote dquote
  = dquote ++ "a" ++ dquote ++ ": " ++ dquote ++ "b" ++ dquote.
Proof. reflexivity. Qed.

Example Lines_cut :
  Bufio.Lines 100 ("a" ++ nl ++ nl ++ "b") = ["a"; EmptyString; "b"].
Proof. reflexivity. Qed.

Example Lines_too_long :
  Bufio.Lines 3 ("ab" ++ nl ++ "abc" ++ nl ++ "a" ++ nl) = ["ab"].
Proof. reflexivity. Qed.

Example Less_numbers : YamlFragment.Less "a@2" "a@10" = true.
Proof. reflexivity. Qed.

Example Patches_none : Patches 1 sampleHeap = Some ([], sampleHeap).
Proof. reflexivity. Qed.

(** The dependency union of the specification: [x] from the
    dependencies, [y] from the optional dependencies. *)
Example AllDependencies_x_y :
  AllDependencies listOrder 1 "k"
    (list_to_map [(1%positive, OLock {["k" := Some 2%positive]});
                  (2%positive, OEntry (mkEntry "1.0.0" EmptyString EmptyString
                                               (Some 3%positive) (Some 4%positive)));
                  (3%positive, ODeps {["x" := "^1.0.0"]});
                  (4%positive, ODeps {["y" := "^2.0.0"]})])
  = Some ((5%positive, true),
          list_to_map [(1%positive, OLock {["k" := Some 2%positive]});
                       (2%positive, OEntry (mkEntry "1.0.0" EmptyString EmptyString
                                                    (Some 3%positive) (Some 4%positive)));
                       (3%positive, ODeps {["x" := "^1.0.0"]});
                       (4%positive, ODeps {["y" := "^2.0.0"]});
                       (5%positive, ODeps (list_to_map [("x", "^1.0.0");
                                                        ("y", "^2.0.0")]))]).
Proof. vm_compute. reflexivity. Qed.

(** A sink that fails: the header is written, the first line is not, and
    [Encode] returns the wrapped error. *)
Example Encode_write_fails :
  Encode YamlFragment.emit (nat * string)%type limitedWrite 1 (1, EmptyString) sampleHeap
  = Some (((0, header), Some (Wrap (LibError "short write") "failed to write to buffer")),
          sampleHeap).
Proof. vm_compute. reflexivity. Qed.

(** A key with nothing under it is decoded to a nil entry; looking the
    key up then dereferences nil.  Such maps are not lockfiles in the
    sense of [lockfileOk]. *)
Example ResolvePackage_nil_entry :
  exists l h,
    DecodeBerryLockfile YamlFragment.parse listOrder nullText ∅ = Some ((l, None), h)
    /\ lockfileOk h l = false
    /\ ResolvePackage yarnKeys l "a" "1" h = None
    /\ ResolvePackage yarnKeys l "b" "1" h = Some (("b@1", "2.0.0", true), h).
Proof.
  do 2 eexists. split; [vm_compute; reflexivity|].
  split; [vm_compute; reflexivity|]. split; vm_compute; reflexivity.
Qed.



Lemma AllDependencies_optional_wins_sample :
  lockfileOk sampleHeap 1 = true
  /\ exists d h' deps,
       AllDependencies listOrder 1 "a@^1.1.0" sampleHeap = Some ((d, true), h')
       /\ h' !! d = Some (ODeps deps)
       /\ deps !! "z" = Some "^4.0.0".
Proof.
  split; [vm_compute; reflexivity|].
  apply (AllDependencies_optional_wins listOrder (fun _ => reflexivity _)
           sampleHeap 1 sampleLock "a@^1.1.0" (Some 2%positive)
           (mkEntry "1.1.3" "https://registry/a-1.1.3.tgz" "sha512-aa"
                    (Some 4%positive) (Some 5%positive))
           "z" "^3.0.0" "^4.0.0");
    vm_compute; reflexivity.
Defined.

Lemma Subgraph_filters_sample :
  sampleHeap !! 1%positive = Some (OLock sampleLock)
  /\ exists sub,
       Subgraph 1 [] ["a@^1.1.0"; "missing@1"] sampleHeap
       = Some ((6%positive, None), <[6%positive := OLock sub]> sampleHeap)
       /\ sub !! "a@^1.1.0" = Some (Some 2%positive)
       /\ sub !! "missing@1" = None
       /\ sub !! "b@npm:2.0.0" = None.
Proof.
  split; [reflexivity|].
  destruct (Subgraph_filters sampleHeap 1 sampleLock [] ["a@^1.1.0"; "missing@1"])
    as (sub & Hrun & Hsub & _); [reflexivity|].
  exists sub. split; [exact Hrun|].
  rewrite !Hsub. vm_compute. auto.
Defined.


Lemma Decode_error_message_sample :
  YamlFragment.parse conflictText = inl YamlFragment.syntaxError
  /\ exists l err h',
       DecodeBerryLockfile YamlFragment.parse listOrder conflictText ∅
       = Some ((l, Some err), h')
       /\ h' !! l = Some (OLock ∅)
       /\ Error err = "could not unmarshal lockfile: yaml: did not find expected key".
Proof.
  split; [vm_compute; reflexivity|].
  apply (Decode_error_message YamlFragment.parse listOrder ∅ conflictText
           YamlFragment.syntaxError).
  vm_compute; reflexivity.
Defined.

(** C7 as stated fails: the text with merge markers is rejected, and the
    message of the error says nothing of corruption or merge conflicts. *)
Lemma Decode_error_has_no_hint :
  YamlFragment.parse conflictText = inl YamlFragment.syntaxError
  /\ ~ (exists l err h',
          DecodeBerryLockfile YamlFragment.parse listOrder conflictText ∅
          = Some ((l, Some err), h')
          /\ hintsCorruption (Error err) = true).
Proof.
  split; [vm_compute; reflexivity|].
  intros (l & err & h' & Hrun & Hhint).
  rewrite (run_Decode_error YamlFragment.parse listOrder ∅ conflictText
             YamlFragment.syntaxError) in Hrun by (vm_compute; reflexivity).
  injection Hrun as _ <- _. vm_compute in Hhint. discriminate.
Qed.

Lemma Decode_splits_aliases_sample :
  YamlFragment.parse aliasText = inr aliasDoc
  /\ aliasesDisjoint (fst <$> map_to_list aliasDoc) = true
  /\ exists l h' pretty p,
       DecodeBerryLockfile YamlFragment.parse listOrder aliasText ∅
       = Some ((l, None), h')
       /\ h' !! l = Some (OLock pretty)
       /\ pretty !! "a@^1.0.0" = Some p
       /\ pretty !! "a@^1.1.0" = Some p
       /\ blockOf h' p
          = Some (mkBlock "1.1.3" "https://registry/a-1.1.3.tgz" EmptyString
                          (Some {["x" := "^1.0.0"]}) None).
Proof.
  assert (Hparse : YamlFragment.parse aliasText = inr aliasDoc)
    by (vm_compute; reflexivity).
  assert (Hdisj : aliasesDisjoint (fst <$> map_to_list aliasDoc) = true)
    by (vm_compute; reflexivity).
  split; [exact Hparse|]. split; [exact Hdisj|].
  destruct (Decode_splits_aliases YamlFragment.parse listOrder
              (fun _ => reflexivity _) ∅ aliasText aliasDoc Hparse Hdisj)
    as (l & h' & pretty & entryOf & Hrun & Hl & Hin & _).
  destruct (Hin "a@^1.0.0, a@^1.1.0"
              (Some (mkBlock "1.1.3" "https://registry/a-1.1.3.tgz" EmptyString
                             (Some {["x" := "^1.0.0"]}) None)))
    as [Hb Hv]; [vm_compute; reflexivity|].
  exists l, h', pretty, (entryOf "a@^1.0.0, a@^1.1.0").
  split; [exact Hrun|]. split; [exact Hl|].
  split; [|split; [|exact Hb]].
  - apply (Hv "a@^1.0.0"). in_list.
  - apply (Hv "a@^1.1.0"). in_list.
Defined.

(** C1 as stated fails: [clashText] parses, and in no visiting order are
    all pieces of each raw key bound to the entry of that raw key, since
    [b@1] is a piece of both raw keys and their blocks differ. *)
Lemma Decode_alias_clash :
  YamlFragment.parse clashText = inr clashDoc
  /\ ~ (exists lockOrder : gmap string (option positive)
                           -> list (string * option positive),
          (forall m, lockOrder m ≡ₚ map_to_list m)
          /\ exists l h' pretty (entryOf : string -> option positive),
               DecodeBerryLockfile YamlFragment.parse lockOrder clashText ∅
               = Some ((l, None), h')
               /\ h' !! l = Some (OLock pretty)
               /\ (forall k b, clashDoc !! k = Some b ->
                     blockOf h' (entryOf k) = b
                     /\ forall v, v ∈ Split k ", " ->
                          pretty !! TrimSpace v = Some (entryOf k))).
Proof.
  split; [vm_compute; reflexivity|].
  intros (lockOrder & _ & l & h' & pretty & entryOf & _ & _ & Hin).
  destruct (Hin "a@1, b@1" (Some (mkBlock "1.0.0" EmptyString EmptyString None None)))
    as [Hb1 Hv1]; [vm_compute; reflexivity|].
  destruct (Hin "b@1" (Some (mkBlock "2.0.0" EmptyString EmptyString None None)))
    as [Hb2 Hv2]; [vm_compute; reflexivity|].
  assert (H1 : pretty !! "b@1" = Some (entryOf "a@1, b@1")).
  { apply (Hv1 "b@1"). in_list. }
  assert (H2 : pretty !! "b@1" = Some (entryOf "b@1")).
  { apply (Hv2 "b@1"). in_list. }
  rewrite H1 in H2. injection H2 as Heq. rewrite Heq in Hb1.
  rewrite Hb1 in Hb2. discriminate.
Qed.

Lemma operations_leave_lockfile_unchanged_sample :
  lockfileOk sampleHeap 1 = true
  /\ (exists r, ResolvePackage yarnKeys 1 "a" "^1.0.0" sampleHeap = Some (r, sampleHeap))
  /\ (exists r h', AllDependencies listOrder 1 "a@^1.0.0" sampleHeap = Some (r, h')
         /\ forall a o, sampleHeap !! a = Some o -> h' !! a = Some o)
  /\ (exists r h', Subgraph 1 [] ["a@^1.0.0"] sampleHeap = Some (r, h')
         /\ forall a o, sampleHeap !! a = Some o -> h' !! a = Some o)
  /\ (exists r, Encode YamlFragment.emit string bufferWrite 1 EmptyString sampleHeap
                = Some (r, sampleHeap)).
Proof.
  split; [vm_compute; reflexivity|].
  apply (operations_leave_lockfile_unchanged yarnKeys YamlFragment.emit listOrder
           (fun _ => reflexivity _) string bufferWrite sampleHeap 1
           "a" "^1.0.0" "a@^1.0.0" [] ["a@^1.0.0"] EmptyString).
  vm_compute; reflexivity.
Defined.








(** For a lockfile without packages the encoder writes an empty flow
    mapping after the header, and the written bytes are rejected. *)
Lemma Decode_of_Encode_empty :
  exists out l' err h',
    Encode YamlFragment.emit string bufferWrite 1 EmptyString emptyHeap
    = Some ((out, None), emptyHeap)
    /\ out = header ++ nl ++ "{}" ++ nl
    /\ DecodeBerryLockfile YamlFragment.parse listOrder out emptyHeap
       = Some ((l', Some err), h').
Proof.
  do 4 eexists.
  split; [vm_compute; reflexivity|].
  split; [vm_compute; reflexivity|].
  vm_compute; reflexivity.
Qed.

(** ** The further properties at the sample data *)

Lemma Subgraph_then_AllDependencies_sample :
  lockfileOk sampleHeap 1 = true
  /\ "a@^1.1.0" ∈ ["a@^1.1.0"; "missing@1"]
  /\ exists s h1,
       Subgraph 1 [] ["a@^1.1.0"; "missing@1"] sampleHeap = Some ((s, None), h1)
       /\ lockfileOk h1 s = true
       /\ is_Some (AllDependencies listOrder 1 "a@^1.1.0" h1)
       /\ AllDependencies listOrder s "a@^1.1.0" h1
          = AllDependencies listOrder 1 "a@^1.1.0" h1.
Proof.
  split; [vm_compute; reflexivity|]. split; [in_list|].
  apply (Subgraph_then_AllDependencies listOrder (fun _ => reflexivity _)
           sampleHeap 1 [] ["a@^1.1.0"; "missing@1"] "a@^1.1.0").
  - vm_compute; reflexivity.
  - in_list.
Defined.

Lemma Subgraph_then_ResolvePackage_sample :
  sampleHeap !! 1%positive = Some (OLock sampleLock)
  /\ exists s h1,
       Subgraph 1 [] ["b@npm:2.0.0"] sampleHeap = Some ((s, None), h1)
       /\ ResolvePackage yarnKeys s "b" "2.0.0" h1
          = ResolvePackage_loop 1
              (filter (fun k => k ∈ ["b@npm:2.0.0"]) (yarnKeys "b" "2.0.0")) h1
       /\ ResolvePackage yarnKeys s "b" "2.0.0" h1
          = Some (("b@npm:2.0.0", "2.0.0", true), h1)
       /\ ResolvePackage yarnKeys s "a" "^1.0.0" h1
          = Some ((EmptyString, EmptyString, false), h1).
Proof.
  split; [reflexivity|].
  destruct (Subgraph_then_ResolvePackage yarnKeys sampleHeap 1 sampleLock []
              ["b@npm:2.0.0"] "b" "2.0.0") as (s & h1 & Hrun & Hres);
    [reflexivity|].
  exists s, h1. split; [exact Hrun|]. split; [exact Hres|].
  vm_compute in Hrun. injection Hrun as <- <-. split; vm_compute; reflexivity.
Defined.

Lemma Subgraph_of_Subgraph_sample :
  sampleHeap !! 1%positive = Some (OLock sampleLock)
  /\ exists s1 h1 s2 h2 sub2,
       Subgraph 1 [] ["a@^1.0.0"; "a@^1.1.0"] sampleHeap = Some ((s1, None), h1)
       /\ Subgraph s1 [] ["a@^1.1.0"; "b@npm:2.0.0"] h1 = Some ((s2, None), h2)
       /\ h2 !! s2 = Some (OLock sub2)
       /\ sub2 !! "a@^1.1.0" = Some (Some 2%positive)
       /\ sub2 !! "a@^1.0.0" = None
       /\ sub2 !! "b@npm:2.0.0" = None.
Proof.
  split; [reflexivity|].
  destruct (Subgraph_of_Subgraph sampleHeap 1 sampleLock
              [] ["a@^1.0.0"; "a@^1.1.0"] [] ["a@^1.1.0"; "b@npm:2.0.0"])
    as (s1 & h1 & s2 & h2 & sub2 & Hrun1 & Hrun2 & Hs2 & _ & Hsub);
    [reflexivity|].
  exists s1, h1, s2, h2, sub2.
  split; [exact Hrun1|]. split; [exact Hrun2|]. split; [exact Hs2|].
  rewrite !Hsub. vm_compute. auto.
Defined.

Lemma Subgraph_by_key_set_sample :
  sampleHeap !! 1%positive = Some (OLock sampleLock)
  /\ Subgraph 1 [] ["a@^1.0.0"; "b@npm:2.0.0"; "a@^1.0.0"] sampleHeap
     = Subgraph 1 [] ["b@npm:2.0.0"; "a@^1.0.0"] sampleHeap.
Proof.
  split; [reflexivity|].
  apply (Subgraph_by_key_set sampleHeap 1 sampleLock []
           ["a@^1.0.0"; "b@npm:2.0.0"; "a@^1.0.0"] ["b@npm:2.0.0"; "a@^1.0.0"]).
  - reflexivity.
  - intros k. rewrite !elem_of_cons, !elem_of_nil. tauto.
Defined.


Lemma Decode_gives_lockfile_sample :
  YamlFragment.parse aliasText = inr aliasDoc
  /\ noNulls aliasDoc = true
  /\ exists l h',
       DecodeBerryLockfile YamlFragment.parse listOrder aliasText ∅
       = Some ((l, None), h')
       /\ lockfileOk h' l = true
       /\ (forall name version, is_Some (ResolvePackage yarnKeys l name version h'))
       /\ (forall key, is_Some (AllDependencies listOrder l key h')).
Proof.
  split; [vm_compute; reflexivity|]. split; [vm_compute; reflexivity|].
  apply (Decode_gives_lockfile yarnKeys YamlFragment.parse listOrder listOrder
           (fun _ => reflexivity _) (fun _ => reflexivity _)
           ∅ aliasText aliasDoc); vm_compute; reflexivity.
Defined.

Lemma Decode_then_Encode_sample :
  YamlFragment.parse unsortedText = inr unsortedDoc
  /\ canonicalKeys (fst <$> map_to_list unsortedDoc) = true
  /\ noNulls unsortedDoc = true
  /\ exists l h',
       DecodeBerryLockfile YamlFragment.parse listOrder unsortedText ∅
       = Some ((l, None), h')
       /\ snapshot l h' = Some (unsortedDoc, h')
       /\ Encode YamlFragment.emit string bufferWrite l EmptyString h'
          = Some (encodeResult string bufferWrite EmptyString
                    (YamlFragment.emit unsortedDoc), h').
Proof.
  split; [vm_compute; reflexivity|]. split; [vm_compute; reflexivity|].
  split; [vm_compute; reflexivity|].
  apply (Decode_then_Encode YamlFragment.parse YamlFragment.emit listOrder
           (fun _ => reflexivity _) string bufferWrite
           ∅ unsortedText unsortedDoc EmptyString); vm_compute; reflexivity.
Defined.

Lemma Decode_then_ResolvePackage_sample :
  YamlFragment.parse aliasText = inr aliasDoc
  /\ aliasesDisjoint (fst <$> map_to_list aliasDoc) = true
  /\ exists l h',
       DecodeBerryLockfile YamlFragment.parse listOrder aliasText ∅
       = Some ((l, None), h')
       /\ ResolvePackage (fun name version => [name ++ "@npm:" ++ version;
                                               name ++ "@" ++ version])
            l "a" "^1.1.0" h'
          = Some (("a@^1.1.0", "1.1.3", true), h').
Proof.
  split; [vm_compute; reflexivity|]. split; [vm_compute; reflexivity|].
  apply (Decode_then_ResolvePackage
           (fun name version => [name ++ "@npm:" ++ version; name ++ "@" ++ version])
           YamlFragment.parse listOrder (fun _ => reflexivity _)
           ∅ aliasText aliasDoc "a@^1.0.0, a@^1.1.0"
           (mkBlock "1.1.3" "https://registry/a-1.1.3.tgz" EmptyString
                    (Some {["x" := "^1.0.0"]}) None)
           "a@^1.1.0" "a" "^1.1.0" ["a@npm:^1.1.0"] []).
  - vm_compute; reflexivity.
  - vm_compute; reflexivity.
  - vm_compute; reflexivity.
  - in_list.
  - reflexivity.
  - vm_compute; reflexivity.
Defined.

Lemma nil_entry_panics_sample :
  nilHeap !! 1%positive = Some (OLock nilLock)
  /\ nilLock !! "a@1" = Some None
  /\ AllDependencies listOrder 1 "a@1" nilHeap = None
  /\ ResolvePackage yarnKeys 1 "a" "1" nilHeap = None.
Proof.
  split; [reflexivity|]. split; [reflexivity|].
  destruct (nil_entry_panics yarnKeys listOrder nilHeap 1 nilLock "a@1" "a" "1"
              [] ["a@npm:1"]) as [Hall Hres]; [reflexivity | reflexivity |].
  split; [exact Hall|]. apply Hres; [reflexivity | constructor].
Defined.

Lemma AllDependencies_returns_a_copy_sample :
  lockfileOk sampleHeap 1 = true
  /\ exists d found h1 h2,
       AllDependencies listOrder 1 "a@^1.0.0" sampleHeap = Some ((d, found), h1)
       /\ depsStore d "x" "changed" h1 = Some (tt, h2)
       /\ (forall a o, sampleHeap !! a = Some o -> h2 !! a = Some o)
       /\ docOf h2 sampleLock = docOf sampleHeap sampleLock.
Proof.
  split; [vm_compute; reflexivity|].
  apply (AllDependencies_returns_a_copy listOrder (fun _ => reflexivity _)
           sampleHeap 1 sampleLock "a@^1.0.0" "x" "changed");
    vm_compute; reflexivity.
Defined.

Lemma Encode_error_cases_sample :
  lockfileOk sampleHeap 1 = true
  /\ Encode YamlFragment.emit (nat * string)%type limitedWrite 1 (1, EmptyString) sampleHeap
     = Some (((0, header), Some (Wrap (LibError "short write") "failed to write to buffer")),
             sampleHeap)
  /\ exists tmp e w0 s,
       YamlFragment.emit (docOf sampleHeap sampleLock) = inr tmp
       /\ limitedWrite w0 s = ((0, header), Some e)
       /\ Wrap (LibError "short write") "failed to write to buffer"
          = Wrap e "failed to write to buffer".
Proof.
  assert (Hrun : Encode YamlFragment.emit (nat * string)%type limitedWrite 1
                   (1, EmptyString) sampleHeap
                 = Some (((0, header),
                          Some (Wrap (LibError "short write") "failed to write to buffer")),
                         sampleHeap)) by (vm_compute; reflexivity).
  split; [vm_compute; reflexivity|]. split; [exact Hrun|].
  destruct (Encode_error_cases YamlFragment.emit (nat * string)%type limitedWrite
              sampleHeap 1 sampleLock (1, EmptyString) (0, header)
              (Wrap (LibError "short write") "failed to write to buffer"))
    as [(e & Hemit & _)|Hwrite]; [vm_compute; reflexivity | reflexivity | exact Hrun | |].
  - vm_compute in Hemit. discriminate.
  - exact Hwrite.
Defined.


Lemma Subgraph_then_Encode_sample :
  lockfileOk sampleHeap 1 = true
  /\ exists s h1,
       Subgraph 1 [] ["b@npm:2.0.0"; "missing@1"] sampleHeap = Some ((s, None), h1)
       /\ snapshot s h1
          = Some (filter (fun kb => fst kb ∈ ["b@npm:2.0.0"; "missing@1"])
                         (docOf sampleHeap sampleLock), h1)
       /\ Encode YamlFragment.emit string bufferWrite s EmptyString h1
          = Some (encodeResult string bufferWrite EmptyString
                    (YamlFragment.emit
                       (filter (fun kb => fst kb ∈ ["b@npm:2.0.0"; "missing@1"])
                               (docOf sampleHeap sampleLock))), h1).
Proof.
  split; [vm_compute; reflexivity|].
  apply (Subgraph_then_Encode YamlFragment.emit string bufferWrite
           sampleHeap 1 sampleLock [] ["b@npm:2.0.0"; "missing@1"] EmptyString).
  - vm_compute; reflexivity.
  - reflexivity.
Defined.

Lemma ResolvePackage_result_sample :
  sampleHeap !! 1%positive = Some (OLock sampleLock)
  /\ ResolvePackage yarnKeys 1 "c" "1.0.0" sampleHeap
     = Some ((EmptyString, EmptyString, false), sampleHeap)
  /\ Forall (fun k' => sampleLock !! k' = None) (yarnKeys "c" "1.0.0").
Proof.
  assert (Hrun : ResolvePackage yarnKeys 1 "c" "1.0.0" sampleHeap
                 = Some ((EmptyString, EmptyString, false), sampleHeap))
    by (vm_compute; reflexivity).
  split; [reflexivity|]. split; [exact Hrun|].
  destruct (ResolvePackage_result yarnKeys sampleHeap 1 sampleLock "c" "1.0.0"
              EmptyString EmptyString false sampleHeap) as (_ & _ & Hfalse);
    [reflexivity | exact Hrun |].
  by destruct (Hfalse eq_refl) as (_ & _ & Hall).
Defined.

(** The long line, without computing it. *)

Lemma string_length_app (a b : string) :
  String.length (a ++ b) = String.length a + String.length b.
Proof.
  induction a as [|c a IH]; [done|].
  change (S (String.length (a ++ b)) = S (String.length a + String.length b)).
  by rewrite IH.
Qed.

Lemma length_double n : forall s,
  N.of_nat (String.length (double n s))
  = (2 ^ N.of_nat n * N.of_nat (String.length s))%N.
Proof.
  induction n as [|n IH]; intros s.
  - change (double 0 s) with s. change (N.of_nat 0) with 0%N. lia.
  - change (double (S n) s) with (double n (s ++ s)).
    rewrite IH, string_length_app, Nat2N.inj_add, Nat2N.inj_succ, N.pow_succ_r'. lia.
Qed.

Lemma hasByte_double b n : forall s, hasByte b (double n s) = hasByte b s.
Proof.
  induction n as [|n IH]; intros s; [done|].
  change (double (S n) s) with (double n (s ++ s)).
  by rewrite IH, hasByte_app, orb_diag.
Qed.

Lemma lines_from_line a : forall cur rest,
  hasByte 10 a = false ->
  Bufio.lines_from cur (a ++ nl ++ rest)
  = (String.rev cur ++ a) :: Bufio.lines_from EmptyString rest.
Proof.
  induction a as [|c a IH]; intros cur rest Ha.
  - change (EmptyString ++ nl ++ rest) with (String (ascii_of_nat 10) rest).
    by rewrite string_app_nil_r.
  - change (String c a ++ nl ++ rest) with (String c (a ++ nl ++ rest)).
    cbn [hasByte] in Ha. apply orb_false_elim in Ha as [Hc Ha].
    cbn [Bufio.lines_from]. rewrite Hc, (IH _ _ Ha), rev_cons, string_app_assoc.
    reflexivity.
Qed.

Lemma rawLines_longTmp : Bufio.rawLines longTmp = (["a@1:"] ++ bigLine :: ["b@1:"])%list.
Proof.
  unfold longTmp, Bufio.rawLines.
  rewrite (lines_from_line "a@1:" EmptyString) by reflexivity.
  rewrite (lines_from_line bigLine EmptyString)
    by (unfold bigLine; by rewrite hasByte_double).
  reflexivity.
Qed.

Lemma bigLine_too_long : Bufio.fits maxTokenSize bigLine = false.
Proof.
  unfold Bufio.fits, bigLine. rewrite length_double. reflexivity.
Qed.

Lemma bufferWrite_reliable : reliable string bufferWrite (fun w => w).
Proof. intros w0 s. by exists (w0 ++ s). Qed.

Lemma Encode_stops_at_long_line_sample :
  lockfileOk sampleHeap 1 = true
  /\ Bufio.rawLines longTmp = (["a@1:"] ++ bigLine :: ["b@1:"])%list
  /\ Bufio.fits maxTokenSize bigLine = false
  /\ exists w',
       Encode (fun _ => inr longTmp) string bufferWrite 1 EmptyString sampleHeap
       = Some ((w', None), sampleHeap)
       /\ w' = EmptyString ++ header ++ unlines (outLines (Bufio.dropCR <$> ["a@1:"])).
Proof.
  split; [vm_compute; reflexivity|]. split; [exact rawLines_longTmp|].
  split; [exact bigLine_too_long|].
  apply (Encode_stops_at_long_line (fun _ => inr longTmp) string bufferWrite
           (fun w => w) sampleHeap 1 sampleLock EmptyString longTmp
           ["a@1:"] bigLine ["b@1:"]).
  - vm_compute; reflexivity.
  - reflexivity.
  - reflexivity.
  - exact rawLines_longTmp.
  - reflexivity.
  - exact bigLine_too_long.
  - exact bufferWrite_reliable.
Defined.

Lemma Decode_keys_canonical_sample :
  YamlFragment.parse clashText = inr clashDoc
  /\ exists l h' pretty,
       DecodeBerryLockfile YamlFragment.parse listOrder clashText ∅
       = Some ((l, None), h')
       /\ h' !! l = Some (OLock pretty)
       /\ canonicalKeys (fst <$> map_to_list pretty) = true
       /\ forall c, is_Some (pretty !! c) ->
            contains c ", " = false /\ TrimSpace c = c.
Proof.
  split; [vm_compute; reflexivity|].
  apply (Decode_keys_canonical YamlFragment.parse listOrder (fun _ => reflexivity _)
           ∅ clashText clashDoc).
  vm_compute; reflexivity.
Defined.

Lemma insertKey_perm {V} (kv : string * V) sorted :
  YamlFragment.insertKey kv sorted ≡ₚ kv :: sorted.
Proof.
  induction sorted as [|kv' sorted IH]; [done|].
  cbn [YamlFragment.insertKey].
  destruct (YamlFragment.Less kv'.1 kv.1); [|done].
  rewrite IH. apply Permutation_swap.
Qed.

Lemma sortKeys_perm {V} (xs : list (string * V)) :
  YamlFragment.sortKeys xs ≡ₚ xs.
Proof.
  induction xs as [|kv xs IH]; [done|].
  change (YamlFragment.sortKeys (kv :: xs))
    with (YamlFragment.insertKey kv (YamlFragment.sortKeys xs)).
  by rewrite insertKey_perm, IH.
Qed.

Lemma descending_perm (m : gmap string (option positive)) :
  descending m ≡ₚ map_to_list m.
Proof. unfold descending. by rewrite reverse_Permutation, sortKeys_perm. Qed.

Lemma yarnSplitOutEntries_idempotent_sample :
  sampleHeap !! 1%positive = Some (OLock sampleLock)
  /\ exists p1 h1 pretty p2 h2,
       yarnSplitOutEntries descending 1 sampleHeap = Some (p1, h1)
       /\ h1 !! p1 = Some (OLock pretty)
       /\ yarnSplitOutEntries descending p1 h1 = Some (p2, h2)
       /\ h2 !! p2 = Some (OLock pretty)
       /\ h2 !! p1 = Some (OLock pretty)
       /\ p2 <> p1.
Proof.
  split; [reflexivity|].
  apply (yarnSplitOutEntries_idempotent descending descending_perm
           sampleHeap 1 sampleLock).
  reflexivity.
Defined.

Lemma Decode_error_lockfile_sample :
  YamlFragment.parse conflictText = inl YamlFragment.syntaxError
  /\ exists l err h',
       DecodeBerryLockfile YamlFragment.parse listOrder conflictText ∅
       = Some ((l, Some err), h')
       /\ lockfileOk h' l = true
       /\ (forall name version,
             ResolvePackage yarnKeys l name version h'
             = Some ((EmptyString, EmptyString, false), h'))
       /\ (forall key, exists d h'',
             AllDependencies listOrder l key h' = Some ((d, false), h'')
             /\ h'' !! d = Some (ODeps ∅)).
Proof.
  split; [vm_compute; reflexivity|].
  apply (Decode_error_lockfile yarnKeys YamlFragment.parse listOrder listOrder
           ∅ conflictText YamlFragment.syntaxError).
  vm_compute; reflexivity.
Defined.

(** ** Two visiting orders *)

(** X19.  Go's map iteration order has no influence on
    [yarnSplitOutEntries] when no piece is claimed by two raw keys: two
    runs that visit the raw map in different orders return the same
    lockfile. *)
Theorem yarnSplitOutEntries_any_order
    (order1 order2 : gmap string (option positive) -> list (string * option positive))
    (h : gmap positive object) (lockfile : positive)
    (m : gmap string (option positive)) :
  (forall m, order1 m ≡ₚ map_to_list m) ->
  (forall m, order2 m ≡ₚ map_to_list m) ->
  h !! lockfile = Some (OLock m) ->
  aliasesDisjoint (fst <$> map_to_list m) = true ->
  yarnSplitOutEntries order1 lockfile h = yarnSplitOutEntries order2 lockfile h.
Proof.
  intros H1 H2 Hl Hdisj.
  rewrite (run_yarnSplitOutEntries order1 h lockfile m Hl).
  rewrite (run_yarnSplitOutEntries order2 h lockfile m Hl).
  by rewrite (splitAll_any_order m (order1 m) (order2 m) (H1 m) (H2 m) Hdisj).
Qed.

Lemma yarnSplitOutEntries_any_order_sample :
  sampleHeap !! 1%positive = Some (OLock sampleLock)
  /\ aliasesDisjoint (fst <$> map_to_list sampleLock) = true
  /\ yarnSplitOutEntries listOrder 1 sampleHeap
     = yarnSplitOutEntries descending 1 sampleHeap.
Proof.
  split; [reflexivity|]. split; [vm_compute; reflexivity|].
  apply (yarnSplitOutEntries_any_order listOrder descending sampleHeap 1 sampleLock).
  - intros m. reflexivity.
  - exact descending_perm.
  - reflexivity.
  - vm_compute; reflexivity.
Defined.
